(** * bitcoin.core.serialize: a shallow embedding and its properties

    The Python module [bitcoin/core/serialize.py] is embedded function by
    function.  Python integers are [Z], [bytes] values are lists of
    [Byte.byte], an in-memory stream ([BytesIO]) is a buffer with a cursor,
    and a function that takes a stream [f] is a computation in a small
    state-and-exception monad whose state is that stream.  A raised
    exception leaves the stream as it was at the point of the [raise]. *)

From Stdlib Require Import ZArith Ascii String DecimalString List Lia Bool.
From Stdlib.Strings Require Import Byte.
Import ListNotations.
Open Scope Z_scope.

(** ** Bytes and Python integers *)

Definition bytes := list byte.

Definition Z_of_byte (b : byte) : Z := Z.of_N (Byte.to_N b).

Definition byte_of_Z (z : Z) : byte :=
  match Byte.of_N (Z.to_N (z mod 256)) with
  | Some b => b
  | None => x00
  end.

(** Python's [len]. *)
Definition len {A : Type} (l : list A) : Z := Z.of_nat (length l).

(** ** Exceptions *)

(** The exceptions the module raises, by class. *)
Inductive exn : Type :=
| SerializationError (msg : string)
| SerializationTruncationError (msg : string)
| ValueError (msg : string)
| NotImplementedError
| AssertionError
| IndexError
| struct_error
| OverflowError.

(** The exception classes and the base class each is declared with:
    [class SerializationError(Exception)] and
    [class SerializationTruncationError(Exception)] in the module, the
    others as Python defines them. *)
Inductive exn_class : Type :=
| C_Exception
| C_SerializationError
| C_SerializationTruncationError
| C_ValueError
| C_RuntimeError
| C_NotImplementedError
| C_AssertionError
| C_LookupError
| C_IndexError
| C_struct_error
| C_ArithmeticError
| C_OverflowError.

Definition exn_class_eqb (c d : exn_class) : bool :=
  match c, d with
  | C_Exception, C_Exception
  | C_SerializationError, C_SerializationError
  | C_SerializationTruncationError, C_SerializationTruncationError
  | C_ValueError, C_ValueError
  | C_RuntimeError, C_RuntimeError
  | C_NotImplementedError, C_NotImplementedError
  | C_AssertionError, C_AssertionError
  | C_LookupError, C_LookupError
  | C_IndexError, C_IndexError
  | C_struct_error, C_struct_error
  | C_ArithmeticError, C_ArithmeticError
  | C_OverflowError, C_OverflowError => true
  | _, _ => false
  end.

Definition exn_base (c : exn_class) : option exn_class :=
  match c with
  | C_Exception => None
  | C_SerializationError => Some C_Exception
  | C_SerializationTruncationError => Some C_Exception
  | C_ValueError => Some C_Exception
  | C_RuntimeError => Some C_Exception
  | C_NotImplementedError => Some C_RuntimeError
  | C_AssertionError => Some C_Exception
  | C_LookupError => Some C_Exception
  | C_IndexError => Some C_LookupError
  | C_struct_error => Some C_Exception
  | C_ArithmeticError => Some C_Exception
  | C_OverflowError => Some C_ArithmeticError
  end.

Definition exn_class_of (e : exn) : exn_class :=
  match e with
  | SerializationError _ => C_SerializationError
  | SerializationTruncationError _ => C_SerializationTruncationError
  | ValueError _ => C_ValueError
  | NotImplementedError => C_NotImplementedError
  | AssertionError => C_AssertionError
  | IndexError => C_IndexError
  | struct_error => C_struct_error
  | OverflowError => C_OverflowError
  end.

(** [issubclass(c, d)]; the hierarchy is three levels deep. *)
Fixpoint issubclass_upto (depth : nat) (c d : exn_class) : bool :=
  exn_class_eqb c d ||
  match depth, exn_base c with
  | S depth', Some b => issubclass_upto depth' b d
  | _, _ => false
  end.

Definition issubclass : exn_class -> exn_class -> bool := issubclass_upto 3.

(** Whether [except d:] handles the exception [e]. *)
Definition caught_by (e : exn) (d : exn_class) : bool :=
  issubclass (exn_class_of e) d.

Inductive result (A : Type) : Type :=
| Ok (a : A)
| Raise (e : exn).
Arguments Ok {A} a.
Arguments Raise {A} e.

(** ** Streams: [io.BytesIO] *)

Record BytesIO : Type := mkBytesIO { buf : bytes; pos : nat }.

(** [BytesIO(b)]: a stream over [b] with the cursor at the start;
    [BytesIO()] is [BytesIO_new []]. *)
Definition BytesIO_new (b : bytes) : BytesIO := {| buf := b; pos := 0 |}.

Definition getvalue (f : BytesIO) : bytes := buf f.

(** Computations that use a stream: the result and the stream afterwards. *)
Definition io (A : Type) : Type := BytesIO -> result A * BytesIO.

Definition ret {A : Type} (a : A) : io A := fun f => (Ok a, f).

Definition raise {A : Type} (e : exn) : io A := fun f => (Raise e, f).

Definition bind {A B : Type} (m : io A) (k : A -> io B) : io B :=
  fun f =>
    match m f with
    | (Ok a, f') => k a f'
    | (Raise e, f') => (Raise e, f')
    end.

(** A call that does not touch the stream but may raise. *)
Definition lift {A : Type} (r : result A) : io A := fun f => (r, f).

Notation "x <- m ;; k" := (bind m (fun x => k))
  (at level 61, m at next level, right associativity).
Notation "m ;;; k" := (bind m (fun _ => k))
  (at level 61, right associativity).

(** [f.read(n)]: at most [n] bytes from the cursor on, everything up to the
    end of the buffer when [n] is negative.  The count is converted to a C
    [ssize_t] (64 bits) first: outside of [-2^63 .. 2^63 - 1] the call
    raises [OverflowError] and reads nothing. *)
Definition read (n : Z) : io bytes :=
  fun f =>
    if (n <? - 2 ^ 63) || (n >? 2 ^ 63 - 1) then (Raise OverflowError, f)
    else
      let avail := skipn (pos f) (buf f) in
      let r := if n <? 0 then avail else firstn (Z.to_nat n) avail in
      (Ok r, {| buf := buf f; pos := pos f + length r |}).

(** [f.write(b)]: overwrites from the cursor on and extends the buffer
    (zero filled, should the cursor lie beyond the end); writing the empty
    bytes changes nothing. *)
Definition write (b : bytes) : io Z :=
  fun f =>
    match b with
    | [] => (Ok 0, f)
    | _ :: _ =>
        let padded := buf f ++ repeat x00 (pos f - length (buf f)) in
        (Ok (len b),
         {| buf := firstn (pos f) padded ++ b
                   ++ skipn (pos f + length b) padded;
            pos := pos f + length b |})
    end.

(** ** Compatibility helpers: [bchr] and [bord] *)

(** [bchr = lambda x: bytes([x])] *)
Definition bchr (x : Z) : result bytes :=
  if (0 <=? x) && (x <? 256) then Ok [byte_of_Z x]
  else Raise (ValueError "bytes must be in range(0, 256)").

(** [bord = lambda x: x[0]] *)
Definition bord (x : bytes) : result Z :=
  match x with
  | b :: _ => Ok (Z_of_byte b)
  | [] => Raise IndexError
  end.

(** ** The [struct] formats the module uses *)

(** [w] bytes of [v], least significant first (two's complement for a
    negative [v]). *)
Fixpoint le_bytes (w : nat) (v : Z) : bytes :=
  match w with
  | O => []
  | S w' => byte_of_Z v :: le_bytes w' (v / 256)
  end.

Fixpoint le_int (bs : bytes) : Z :=
  match bs with
  | [] => 0
  | b :: bs' => Z_of_byte b + 256 * le_int bs'
  end.

Module struct.

(** [struct.pack] for an unsigned little-endian format of [w] bytes. *)
Definition pack_unsigned (w : nat) (v : Z) : result bytes :=
  if (0 <=? v) && (v <? 2 ^ (8 * Z.of_nat w)) then Ok (le_bytes w v)
  else Raise struct_error.

(** [struct.unpack] for such a format: a tuple of one integer. *)
Definition unpack_unsigned (w : nat) (s : bytes) : result (list Z) :=
  if (length s =? w)%nat then Ok [le_int s] else Raise struct_error.

(** [struct.pack(b'<H', v)], [b'<I'], [b'<Q'] *)
Definition pack_H : Z -> result bytes := pack_unsigned 2.
Definition pack_I : Z -> result bytes := pack_unsigned 4.
Definition pack_Q : Z -> result bytes := pack_unsigned 8.

Definition unpack_H : bytes -> result (list Z) := unpack_unsigned 2.
Definition unpack_I : bytes -> result (list Z) := unpack_unsigned 4.
Definition unpack_Q : bytes -> result (list Z) := unpack_unsigned 8.

(** [struct.pack(b'<i', v)]: a signed 32-bit integer. *)
Definition pack_i (v : Z) : result bytes :=
  if (- 2 ^ 31 <=? v) && (v <? 2 ^ 31) then Ok (le_bytes 4 v)
  else Raise struct_error.

Definition unpack_i (s : bytes) : result (list Z) :=
  if (length s =? 4)%nat then
    let u := le_int s in
    Ok [if u <? 2 ^ 31 then u else u - 2 ^ 32]
  else Raise struct_error.

End struct.

(** Indexing a tuple with [[0]]. *)
Definition item0 {A : Type} (t : list A) : result A :=
  match t with
  | x :: _ => Ok x
  | [] => Raise IndexError
  end.

(** ** [ser_read] *)

Definition MAX_SIZE : Z := 0x02000000.

(** ['%i' % n] *)
Definition fmt_i (n : Z) : string := NilZero.string_of_int (Z.to_int n).

(** The message of the truncation error,
    ['Asked to read %i bytes, but only got %i' % (n, len(r))]. *)
Definition truncation_msg (n got : Z) : string :=
  ("Asked to read " ++ fmt_i n ++ " bytes, but only got " ++ fmt_i got)%string.

(** [ser_read(f, n)]; the stream [f] is the state of the computation. *)
Definition ser_read (n : Z) : io bytes :=
  if n >? MAX_SIZE then
    raise (SerializationError "Asked to read 0x%x bytes; MAX_SIZE exceeded")
  else
    r <- read n ;;
    if len r <? n then
      raise (SerializationTruncationError (truncation_msg n (len r)))
    else ret r.

(** ** [Serializer]: the base class of the external codecs *)

Module Serializer.

(** What a subclass overrides: it serializes values of type [A] and its
    deserialization returns values of type [B]. *)
Record class (A B : Type) : Type := Build {
  stream_serialize : A -> io unit;
  stream_deserialize : io B
}.
Arguments Build {A B} _ _.
Arguments stream_serialize {A B} _ _ _.
Arguments stream_deserialize {A B} _ _.

(** The base class itself: both methods raise [NotImplementedError]. *)
Definition base (A B : Type) : class A B :=
  Build (fun _ => raise NotImplementedError) (raise NotImplementedError).

(** [serialize(cls, obj)] *)
Definition serialize {A B : Type} (cls : class A B) (obj : A)
    : result bytes :=
  match stream_serialize cls obj (BytesIO_new []) with
  | (Ok _, f) => Ok (getvalue f)
  | (Raise e, _) => Raise e
  end.

(** [deserialize(cls, buf)] *)
Definition deserialize {A B : Type} (cls : class A B) (buf : bytes)
    : result B :=
  fst (stream_deserialize cls (BytesIO_new buf)).

End Serializer.

(** ** [VarIntSerializer] *)

Module VarIntSerializer.

Definition stream_serialize (i : Z) : io unit :=
  if i <? 0 then
    raise (ValueError "varint must be non-negative integer")
  else if i <? 0xfd then
    b <- lift (bchr i) ;; write b ;;; ret tt
  else if i <=? 0xffff then
    b <- lift (bchr 0xfd) ;; write b ;;;
    p <- lift (struct.pack_H i) ;; write p ;;; ret tt
  else if i <=? 0xffffffff then
    b <- lift (bchr 0xfe) ;; write b ;;;
    p <- lift (struct.pack_I i) ;; write p ;;; ret tt
  else
    b <- lift (bchr 0xff) ;; write b ;;;
    p <- lift (struct.pack_Q i) ;; write p ;;; ret tt.

Definition stream_deserialize : io Z :=
  s <- ser_read 1 ;;
  r <- lift (bord s) ;;
  if r <? 0xfd then ret r
  else if r =? 0xfd then
    s <- ser_read 2 ;; t <- lift (struct.unpack_H s) ;; lift (item0 t)
  else if r =? 0xfe then
    s <- ser_read 4 ;; t <- lift (struct.unpack_I s) ;; lift (item0 t)
  else
    s <- ser_read 8 ;; t <- lift (struct.unpack_Q s) ;; lift (item0 t).

Definition cls : Serializer.class Z Z :=
  Serializer.Build stream_serialize stream_deserialize.

Definition serialize : Z -> result bytes := Serializer.serialize cls.
Definition deserialize : bytes -> result Z := Serializer.deserialize cls.

End VarIntSerializer.

(** ** Loops *)

(** [for x in range(n): s = body(s)], for a loop that threads [s]. *)
Fixpoint iterate {S : Type} (k : nat) (body : S -> io S) (s : S) : io S :=
  match k with
  | O => ret s
  | Datatypes.S k' => s' <- body s ;; iterate k' body s'
  end.

Definition for_range {S : Type} (n : Z) (body : S -> io S) (s : S) : io S :=
  iterate (Z.to_nat n) body s.

(** [for x in xs: body(x)] *)
Fixpoint for_each {A : Type} (xs : list A) (body : A -> io unit) : io unit :=
  match xs with
  | [] => ret tt
  | x :: xs' => body x ;;; for_each xs' body
  end.

(** [r.append(x)] on the loop's list. *)
Definition append {A : Type} (r : list A) (x : A) : list A := r ++ [x].

(** ** [BytesSerializer] *)

Module BytesSerializer.

Definition stream_serialize (b : bytes) : io unit :=
  VarIntSerializer.stream_serialize (len b) ;;;
  write b ;;; ret tt.

Definition stream_deserialize : io bytes :=
  l <- VarIntSerializer.stream_deserialize ;;
  ser_read l.

Definition cls : Serializer.class bytes bytes :=
  Serializer.Build stream_serialize stream_deserialize.

Definition serialize : bytes -> result bytes := Serializer.serialize cls.
Definition deserialize : bytes -> result bytes := Serializer.deserialize cls.

End BytesSerializer.

(** ** [VectorSerializer] *)

Module VectorSerializer.

Definition stream_serialize {A B : Type} (inner_cls : Serializer.class A B)
    (objs : list A) : io unit :=
  VarIntSerializer.stream_serialize (len objs) ;;;
  for_each objs (fun obj => Serializer.stream_serialize inner_cls obj).

Definition stream_deserialize {A B : Type} (inner_cls : Serializer.class A B)
    : io (list B) :=
  n <- VarIntSerializer.stream_deserialize ;;
  for_range n
    (fun r => x <- Serializer.stream_deserialize inner_cls ;; ret (append r x))
    [].

End VectorSerializer.

(** ** [uint256VectorSerializer] *)

Module uint256VectorSerializer.

Definition stream_serialize (uints : list bytes) : io unit :=
  VarIntSerializer.stream_serialize (len uints) ;;;
  for_each uints (fun uint =>
    if len uint =? 32 then write uint ;;; ret tt
    else raise AssertionError).

Definition stream_deserialize : io (list bytes) :=
  n <- VarIntSerializer.stream_deserialize ;;
  for_range n (fun r => x <- ser_read 32 ;; ret (append r x)) [].

Definition cls : Serializer.class (list bytes) (list bytes) :=
  Serializer.Build stream_serialize stream_deserialize.

Definition serialize : list bytes -> result bytes := Serializer.serialize cls.
Definition deserialize : bytes -> result (list bytes) :=
  Serializer.deserialize cls.

End uint256VectorSerializer.

(** ** [intVectorSerialzer] *)

Module intVectorSerialzer.

Definition stream_serialize (ints : list Z) : io unit :=
  let l := len ints in
  VarIntSerializer.stream_serialize l ;;;
  for_each ints (fun i => p <- lift (struct.pack_i i) ;; write p ;;; ret tt).

(** The loop of [stream_deserialize]: what it leaves in the local [ints],
    a list of the one-element tuples [struct.unpack] returns. *)
Definition stream_deserialize_ints : io (list (list Z)) :=
  l <- VarIntSerializer.stream_deserialize ;;
  for_range l
    (fun ints => s <- ser_read 4 ;; t <- lift (struct.unpack_i s) ;;
                 ret (append ints t))
    [].

(** The function has no [return]: its value is Python's [None], here
    [None] of the option type; [Some ints] would be a returned list. *)
Definition stream_deserialize : io (option (list (list Z))) :=
  stream_deserialize_ints ;;; ret None.

Definition cls : Serializer.class (list Z) (option (list (list Z))) :=
  Serializer.Build stream_serialize stream_deserialize.

Definition serialize : list Z -> result bytes := Serializer.serialize cls.

Definition deserialize : bytes -> result (option (list (list Z))) :=
  Serializer.deserialize cls.

End intVectorSerialzer.

(** ** [VarStringSerializer] *)

Module VarStringSerializer.

Definition stream_serialize (s : bytes) : io unit :=
  let l := len s in
  VarIntSerializer.stream_serialize l ;;;
  write s ;;; ret tt.

Definition stream_deserialize : io bytes :=
  l <- VarIntSerializer.stream_deserialize ;;
  ser_read l.

Definition cls : Serializer.class bytes bytes :=
  Serializer.Build stream_serialize stream_deserialize.

Definition serialize : bytes -> result bytes := Serializer.serialize cls.
Definition deserialize : bytes -> result bytes := Serializer.deserialize cls.

End VarStringSerializer.

(** ** [Serializable]: the base class of self-serializing objects *)

Module Serializable.

(** An instance: its identity, the classes it is an instance of (its own
    class first, then the base classes, as in [type(o).__mro__]) and the
    [stream_serialize] its class defines. *)
Record object : Type := Build {
  ob_id : nat;
  ob_mro : list string;
  stream_serialize : io unit
}.

(** [o.__class__] *)
Definition class_of (o : object) : string := hd "object"%string (ob_mro o).

(** [isinstance(o, c)] *)
Definition isinstance (o : object) (c : string) : bool :=
  existsb (String.eqb c) (ob_mro o).

(** [self.serialize()] *)
Definition serialize (self : object) : result bytes :=
  match stream_serialize self (BytesIO_new []) with
  | (Ok _, f) => Ok (getvalue f)
  | (Raise e, _) => Raise e
  end.

(** [cls.deserialize(buf)], for the [stream_deserialize] of [cls]. *)
Definition deserialize {A : Type} (stream_deserialize : io A) (buf : bytes)
    : result A :=
  fst (stream_deserialize (BytesIO_new buf)).

(** What a rich comparison method returns. *)
Inductive cmp : Type :=
| NotImplemented
| Bool (b : bool).

Definition bytes_eqb (a b : bytes) : bool :=
  if list_eq_dec Byte.byte_eq_dec a b then true else false.

(** [Serializable.__eq__(self, other)] *)
Definition __eq__ (self other : object) : result cmp :=
  if negb (isinstance other (class_of self)) &&
     negb (isinstance self (class_of other))
  then Ok NotImplemented
  else
    match serialize self with
    | Raise e => Raise e
    | Ok a =>
        match serialize other with
        | Raise e => Raise e
        | Ok b => Ok (Bool (bytes_eqb a b))
        end
    end.

(** The expression [a == b] on two instances whose classes both inherit
    [__eq__] from [Serializable], as Python evaluates it: the reflected
    call [b.__eq__(a)] first when the class of [b] is a proper subclass of
    the class of [a], then [a.__eq__(b)], then the reflected call if it was
    not tried, and comparison by identity when every call returned
    [NotImplemented]. *)
Definition py_eq (a b : object) : result bool :=
  let reflected_first :=
    negb (String.eqb (class_of a) (class_of b)) && isinstance b (class_of a) in
  let identity := Ok (ob_id a =? ob_id b)%nat in
  let direct (k : result bool) :=
    match __eq__ a b with
    | Raise e => Raise e
    | Ok (Bool r) => Ok r
    | Ok NotImplemented => k
    end in
  let reflected (k : result bool) :=
    match __eq__ b a with
    | Raise e => Raise e
    | Ok (Bool r) => Ok r
    | Ok NotImplemented => k
    end in
  if reflected_first then reflected (direct identity)
  else direct (reflected identity).

(** [Serializable.__ne__(self, other)] *)
Definition __ne__ (self other : object) : result bool :=
  match py_eq self other with
  | Raise e => Raise e
  | Ok r => Ok (negb r)
  end.

(** [Serializable.__hash__(self)], for the built-in [hash] on [bytes]. *)
Definition __hash__ (hash : bytes -> Z) (self : object) : result Z :=
  match serialize self with
  | Raise e => Raise e
  | Ok s => Ok (hash s)
  end.

End Serializable.

(** ** Consecutive element decodes *)

(** [run inner k f xs f']: started on the stream [f], [k] calls of [inner]
    in a row all return; [xs] lists what they return, in order, and [f'] is
    the stream after the last of them. *)
Inductive run {B : Type} (inner : io B)
    : nat -> BytesIO -> list B -> BytesIO -> Prop :=
| run_O : forall f, run inner 0 f [] f
| run_S : forall k f x f1 xs f',
    inner f = (Ok x, f1) ->
    run inner k f1 xs f' ->
    run inner (S k) f (x :: xs) f'.

(** ** Streams by what is consumed and what is left *)

(** The part of the buffer from the cursor on. *)
Definition remaining (f : BytesIO) : bytes := skipn (pos f) (buf f).

(** The stream whose buffer is [pre ++ rest] and whose cursor stands after
    [pre]. *)
Definition cursor (pre rest : bytes) : BytesIO :=
  {| buf := pre ++ rest; pos := length pre |}.

(** A decoder that, when it returns, has consumed a prefix of what was left
    and returns the same value whatever follows that prefix. *)
Definition prefix_decoder {A : Type} (m : io A) : Prop :=
  forall pre rest x f',
    m (cursor pre rest) = (Ok x, f') ->
    exists used rest',
      rest = used ++ rest' /\
      f' = cursor (pre ++ used) rest' /\
      forall t, m (cursor pre (used ++ t)) = (Ok x, cursor (pre ++ used) t).

(** ** The VarInt wire format, as tabulated *)

(** The encoding of [i] by tier: the value itself in one byte below [0xfd];
    the marker [0xfd] and two bytes up to [0xffff]; the marker [0xfe] and
    four bytes up to [0xffffffff]; the marker [0xff] and eight bytes
    above. *)
Definition varint_tier (i : Z) : bytes :=
  if i <? 0xfd then [byte_of_Z i]
  else if i <=? 0xffff then xfd :: le_bytes 2 i
  else if i <=? 0xffffffff then xfe :: le_bytes 4 i
  else xff :: le_bytes 8 i.

(** ** Two instances of sibling classes *)

(** An instance of a class [CTxIn(Serializable)] and an instance of a class
    [CTxOut(Serializable)], each written out as the single byte [0x01]. *)
Definition sibling_a : Serializable.object :=
  Serializable.Build 1 ["CTxIn"; "Serializable"; "object"]%string
    (write [x01] ;;; ret tt).

Definition sibling_b : Serializable.object :=
  Serializable.Build 2 ["CTxOut"; "Serializable"; "object"]%string
    (write [x01] ;;; ret tt).

(** An instance of a class [CTransaction(Serializable)] and an instance of
    its subclass [CMutableTransaction(CTransaction)], with the same
    serialized bytes. *)
Definition base_tx : Serializable.object :=
  Serializable.Build 3 ["CTransaction"; "Serializable"; "object"]%string
    (write [x01; x00] ;;; ret tt).

Definition derived_tx : Serializable.object :=
  Serializable.Build 4
    ["CMutableTransaction"; "CTransaction"; "Serializable"; "object"]%string
    (write [x01; x00] ;;; ret tt).

(** ** The 256-bit integer helpers *)

(** Sequencing on results, for code that uses no stream. *)
Definition and_then {A B : Type} (r : result A) (k : A -> result B)
    : result B :=
  match r with
  | Ok a => k a
  | Raise e => Raise e
  end.

(** [a << n] on Python integers: a negative count is an error. *)
Definition lshift (a n : Z) : result Z :=
  if n <? 0 then Raise (ValueError "negative shift count")
  else Ok (Z.shiftl a n).

(** [t[i]] on a tuple, a negative [i] counting from the end. *)
Definition getitem {A : Type} (t : list A) (i : Z) : result A :=
  let j := if i <? 0 then i + len t else i in
  if j <? 0 then Raise IndexError
  else match nth_error t (Z.to_nat j) with
       | Some x => Ok x
       | None => Raise IndexError
       end.

(** The first [k] little-endian 32-bit words of [s]. *)
Fixpoint words (k : nat) (s : bytes) : list Z :=
  match k with
  | O => []
  | S k' => le_int (firstn 4 s) :: words k' (skipn 4 s)
  end.

(** [struct.unpack(b"<IIIIIIII", s)] *)
Definition unpack_IIIIIIII (s : bytes) : result (list Z) :=
  if (length s =? 32)%nat then Ok (words 8 s) else Raise struct_error.

(** [for i in range(k): r = body(i, r)], counting from [i], without a
    stream. *)
Fixpoint fold_range (k : nat) (i : Z) (body : Z -> Z -> result Z) (r : Z)
    : result Z :=
  match k with
  | O => Ok r
  | S k' => and_then (body i r) (fold_range k' (i + 1) body)
  end.

(** [uint256_from_str(s)] *)
Definition uint256_from_str (s : bytes) : result Z :=
  and_then (unpack_IIIIIIII (firstn 32 s)) (fun t =>
    fold_range 8 0
      (fun i r =>
         and_then (getitem t i) (fun ti =>
         and_then (lshift ti (i * 32)) (fun x => Ok (r + x))))
      0).

(** [uint256_from_compact(c)] *)
Definition uint256_from_compact (c : Z) : result Z :=
  let nbytes := Z.land (Z.shiftr c 24) 0xFF in
  lshift (Z.land c 0xFFFFFF) (8 * (nbytes - 3)).

(** An instance of a direct subclass of [Serializable] that does not
    override [stream_serialize]: the method of the base class raises
    [NotImplementedError]. *)
Definition abstract_obj : Serializable.object :=
  Serializable.Build 5 ["CTransaction"; "Serializable"; "object"]%string
    (raise NotImplementedError).

(** ** [uint256_to_shortstr] *)

(** The text of a formatted integer, character by character. *)
Definition hex_digit (d : Z) : ascii :=
  nth (Z.to_nat d) (list_ascii_of_string "0123456789abcdef") "0"%char.

(** The hexadecimal digits of [n], most significant first, in front of
    [acc]; [fuel] bounds the number of digits. *)
Fixpoint hex_aux (fuel : nat) (n : Z) (acc : list ascii) : list ascii :=
  match fuel with
  | O => acc
  | S fuel' =>
      let acc' := hex_digit (n mod 16) :: acc in
      if n <? 16 then acc' else hex_aux fuel' (n / 16) acc'
  end.

(** ['%x' % n] for [n >= 0]: no digit more than needed, one for zero. *)
Definition hex (n : Z) : list ascii :=
  hex_aux (S (Z.to_nat (Z.log2 n))) n [].

(** ['%0<w>x' % u]: a sign for a negative [u], then zeros up to the width
    [w], then the digits of the absolute value. *)
Definition fmt_0x (w : nat) (u : Z) : list ascii :=
  let sign := if u <? 0 then ["-"%char] else [] in
  let body := hex (Z.abs u) in
  sign ++ repeat "0"%char (w - length sign - length body) ++ body.

(** [uint256_to_shortstr(u)]: [s = "%064x" % (u,)], then [s[:16]]. *)
Definition uint256_to_shortstr (u : Z) : list ascii :=
  let s := fmt_0x 64 u in
  firstn 16 s.

(** Exactly [w] hexadecimal digits of [n], most significant first. *)
Fixpoint hex_fixed (w : nat) (n : Z) : list ascii :=
  match w with
  | O => []
  | S w' => hex_fixed w' (n / 16) ++ [hex_digit (n mod 16)]
  end.

(** ** Computations that only read *)

(** However it ends, [m] leaves the contents of the buffer as they were and
    does not move the cursor backwards. *)
Definition read_only {A : Type} (m : io A) : Prop :=
  forall f r f', m f = (r, f') -> buf f' = buf f /\ (pos f <= pos f')%nat.

(** * Properties *)

(** ** The encodings of a few values *)

Example varint_fc : VarIntSerializer.serialize 0xfc = Ok [xfc].
Proof. reflexivity. Qed.

Example varint_fd : VarIntSerializer.serialize 0xfd = Ok [xfd; xfd; x00].
Proof. reflexivity. Qed.

Example varint_ffff : VarIntSerializer.serialize 0xffff = Ok [xfd; xff; xff].
Proof. reflexivity. Qed.

Example varint_10000 :
  VarIntSerializer.serialize 0x10000 = Ok [xfe; x00; x00; x01; x00].
Proof. reflexivity. Qed.

Example varint_100000000 :
  VarIntSerializer.serialize 0x100000000
  = Ok [xff; x00; x00; x00; x00; x01; x00; x00; x00].
Proof. reflexivity. Qed.

Example varint_dec_fe_truncated :
  VarIntSerializer.deserialize [xfe; x01; x02]
  = Raise (SerializationTruncationError
             "Asked to read 4 bytes, but only got 2").
Proof. reflexivity. Qed.

Example bytes_hi : BytesSerializer.serialize [x68; x69] = Ok [x02; x68; x69].
Proof. reflexivity. Qed.

(** ** Bytes and little-endian integers *)

Lemma Z_of_byte_range (b : byte) : 0 <= Z_of_byte b < 256.
Proof.
  unfold Z_of_byte. pose proof (Byte.to_N_bounded b). lia.
Qed.

Lemma Z_of_byte_of_Z (z : Z) : Z_of_byte (byte_of_Z z) = z mod 256.
Proof.
  unfold Z_of_byte, byte_of_Z.
  pose proof (Z.mod_pos_bound z 256 eq_refl) as Hz.
  destruct (Byte.of_N (Z.to_N (z mod 256))) as [b|] eqn:E.
  - apply Byte.to_of_N in E. rewrite E. lia.
  - apply Byte.of_N_None_iff in E. lia.
Qed.

Lemma byte_of_Z_of_byte (b : byte) : byte_of_Z (Z_of_byte b) = b.
Proof.
  unfold byte_of_Z. pose proof (Z_of_byte_range b) as Hb.
  rewrite Z.mod_small by exact Hb.
  unfold Z_of_byte. rewrite N2Z.id, Byte.of_to_N. reflexivity.
Qed.

Lemma Z_of_byte_inj (a b : byte) : Z_of_byte a = Z_of_byte b -> a = b.
Proof.
  intros H. rewrite <- (byte_of_Z_of_byte a), <- (byte_of_Z_of_byte b).
  now rewrite H.
Qed.

Lemma le_bytes_length (w : nat) : forall v, length (le_bytes w v) = w.
Proof.
  induction w as [|w IH]; intros v; simpl; [reflexivity|].
  now rewrite IH.
Qed.

Lemma le_int_range (bs : bytes) :
  0 <= le_int bs < 2 ^ (8 * Z.of_nat (length bs)).
Proof.
  induction bs as [|b bs IH].
  - simpl. lia.
  - cbn [le_int length]. pose proof (Z_of_byte_range b) as Hb.
    replace (8 * Z.of_nat (S (length bs)))
      with (8 + 8 * Z.of_nat (length bs)) by lia.
    rewrite Z.pow_add_r by lia. change (2 ^ 8) with 256. nia.
Qed.

Lemma le_int_le_bytes (w : nat) :
  forall v, le_int (le_bytes w v) = v mod 2 ^ (8 * Z.of_nat w).
Proof.
  induction w as [|w IH]; intros v.
  - simpl. now rewrite Z.mod_1_r.
  - cbn [le_bytes le_int]. rewrite IH, Z_of_byte_of_Z.
    replace (8 * Z.of_nat (S w)) with (8 + 8 * Z.of_nat w) by lia.
    rewrite Z.pow_add_r by lia. change (2 ^ 8) with 256.
    rewrite Z.rem_mul_r by lia. reflexivity.
Qed.

Lemma le_int_le_bytes_small (w : nat) (v : Z) :
  0 <= v < 2 ^ (8 * Z.of_nat w) -> le_int (le_bytes w v) = v.
Proof.
  intros H. rewrite le_int_le_bytes. now apply Z.mod_small.
Qed.

Lemma le_bytes_le_int (bs : bytes) : le_bytes (length bs) (le_int bs) = bs.
Proof.
  induction bs as [|b bs IH]; [reflexivity|].
  cbn [length le_bytes le_int]. pose proof (Z_of_byte_range b) as Hb.
  f_equal.
  - apply Z_of_byte_inj. rewrite Z_of_byte_of_Z.
    replace (Z_of_byte b + 256 * le_int bs)
      with (Z_of_byte b + le_int bs * 256) by lia.
    rewrite Z.mod_add by lia. now apply Z.mod_small.
  - replace ((Z_of_byte b + 256 * le_int bs) / 256) with (le_int bs);
      [exact IH|].
    replace (Z_of_byte b + 256 * le_int bs)
      with (Z_of_byte b + le_int bs * 256) by lia.
    rewrite Z.div_add by lia.
    rewrite (Z.div_small (Z_of_byte b)) by lia. lia.
Qed.

(** ** Reading and writing *)

Lemma len_nonneg {A : Type} (x : list A) : 0 <= len x.
Proof. unfold len. lia. Qed.

Lemma BytesIO_new_cursor (b : bytes) : BytesIO_new b = cursor [] b.
Proof. reflexivity. Qed.

Lemma remaining_cursor (pre rest : bytes) : remaining (cursor pre rest) = rest.
Proof.
  unfold remaining, cursor; simpl.
  rewrite skipn_app, skipn_all, Nat.sub_diag. reflexivity.
Qed.

Lemma cursor_app (pre used rest : bytes) :
  {| buf := pre ++ used ++ rest; pos := length pre + length used |}
  = cursor (pre ++ used) rest.
Proof. unfold cursor. now rewrite length_app, app_assoc. Qed.

Lemma read_in_range (n : Z) (f : BytesIO) :
  - 2 ^ 63 <= n <= 2 ^ 63 - 1 ->
  read n f =
  (Ok (if n <? 0 then remaining f else firstn (Z.to_nat n) (remaining f)),
   {| buf := buf f;
      pos := pos f + length (if n <? 0 then remaining f
                             else firstn (Z.to_nat n) (remaining f)) |}).
Proof.
  intros Hn. unfold read, remaining.
  destruct (n <? - 2 ^ 63) eqn:E1.
  { apply Z.ltb_lt in E1. lia. }
  destruct (n >? 2 ^ 63 - 1) eqn:E2.
  { destruct (Z.gtb_spec n (2 ^ 63 - 1)); [lia | discriminate]. }
  reflexivity.
Qed.

Lemma read_cursor (pre r rest : bytes) :
  len r <= 2 ^ 63 - 1 ->
  read (len r) (cursor pre (r ++ rest)) = (Ok r, cursor (pre ++ r) rest).
Proof.
  intros Hmax. pose proof (len_nonneg r) as Hr.
  rewrite read_in_range by lia.
  rewrite remaining_cursor.
  destruct (len r <? 0) eqn:E; [apply Z.ltb_lt in E; lia|].
  unfold len. rewrite Nat2Z.id, firstn_app, firstn_all, Nat.sub_diag.
  simpl firstn. rewrite app_nil_r. simpl buf; simpl pos.
  now rewrite cursor_app.
Qed.

Lemma write_cursor (pre b : bytes) :
  write b (cursor pre []) = (Ok (len b), cursor (pre ++ b) []).
Proof.
  destruct b as [|x b].
  - unfold write, cursor, len. cbn [length Z.of_nat].
    now rewrite !app_nil_r.
  - unfold write, cursor; simpl. rewrite !app_nil_r, Nat.sub_diag. simpl.
    rewrite app_nil_r, firstn_all, skipn_all2 by lia.
    now rewrite app_nil_r, length_app.
Qed.

(** Below the range of [f.read], [ser_read] passes on its exception. *)
Lemma ser_read_overflow (n : Z) (f : BytesIO) :
  n < - 2 ^ 63 -> ser_read n f = (Raise OverflowError, f).
Proof.
  intros Hn. unfold ser_read.
  destruct (n >? MAX_SIZE) eqn:E.
  { destruct (Z.gtb_spec n MAX_SIZE); [unfold MAX_SIZE in *; lia|discriminate]. }
  unfold bind, read.
  destruct (n <? - 2 ^ 63) eqn:E1; [reflexivity|].
  apply Z.ltb_ge in E1. lia.
Qed.

Lemma ser_read_unfold (n : Z) (f : BytesIO) :
  - 2 ^ 63 <= n ->
  ser_read n f =
  if n >? MAX_SIZE then
    (Raise (SerializationError "Asked to read 0x%x bytes; MAX_SIZE exceeded"),
     f)
  else
    let r := if n <? 0 then remaining f
             else firstn (Z.to_nat n) (remaining f) in
    let f' := {| buf := buf f; pos := pos f + length r |} in
    if len r <? n then
      (Raise (SerializationTruncationError (truncation_msg n (len r))), f')
    else (Ok r, f').
Proof.
  intros Hn. unfold ser_read.
  destruct (n >? MAX_SIZE) eqn:E; [reflexivity|].
  assert (Hmax : n <= MAX_SIZE).
  { destruct (Z.gtb_spec n MAX_SIZE); [discriminate | lia]. }
  unfold bind. rewrite read_in_range by (unfold MAX_SIZE in Hmax; lia).
  cbv zeta. destruct (len _ <? n); reflexivity.
Qed.

Lemma ser_read_cursor (pre r rest : bytes) :
  len r <= MAX_SIZE ->
  ser_read (len r) (cursor pre (r ++ rest)) = (Ok r, cursor (pre ++ r) rest).
Proof.
  intros H. unfold ser_read.
  destruct (len r >? MAX_SIZE) eqn:E; [apply Z.gtb_lt in E; lia|].
  unfold bind.
  rewrite read_cursor by (unfold MAX_SIZE in H; lia).
  now rewrite Z.ltb_irrefl.
Qed.

(** A successful read of a non-negative count returns exactly that many
    bytes, taken from the front of what was left. *)
Lemma ser_read_ok_inv (n : Z) (pre rest r : bytes) (f' : BytesIO) :
  0 <= n ->
  ser_read n (cursor pre rest) = (Ok r, f') ->
  exists rest', rest = r ++ rest' /\ len r = n /\ n <= MAX_SIZE /\
                f' = cursor (pre ++ r) rest'.
Proof.
  intros Hn. rewrite ser_read_unfold, remaining_cursor by lia.
  destruct (n >? MAX_SIZE) eqn:Emax; [discriminate|].
  destruct (n <? 0) eqn:Eneg; [apply Z.ltb_lt in Eneg; lia|].
  cbv zeta. destruct (len _ <? n) eqn:Elen; [discriminate|].
  intros H. injection H as <- <-.
  apply Z.ltb_ge in Elen.
  assert (Hmax : n <= MAX_SIZE).
  { destruct (Z.gtb_spec n MAX_SIZE); [discriminate | lia]. }
  exists (skipn (Z.to_nat n) rest).
  pose proof (firstn_le_length (Z.to_nat n) rest) as Hle.
  assert (Hl : len (firstn (Z.to_nat n) rest) = n).
  { unfold len in *. rewrite length_firstn in *. lia. }
  repeat split; try assumption.
  - now rewrite firstn_skipn.
  - simpl buf; simpl pos.
    rewrite <- (firstn_skipn (Z.to_nat n) rest) at 1.
    apply cursor_app.
Qed.

Lemma ser_read_exact (n : Z) (pre r rest : bytes) :
  len r = n -> n <= MAX_SIZE ->
  ser_read n (cursor pre (r ++ rest)) = (Ok r, cursor (pre ++ r) rest).
Proof. intros <- H. now apply ser_read_cursor. Qed.

(** ** VarInt: what the encoder writes *)

Ltac zbool :=
  repeat match goal with
  | H : (_ <? _) = true |- _ => apply Z.ltb_lt in H
  | H : (_ <? _) = false |- _ => apply Z.ltb_ge in H
  | H : (_ <=? _) = true |- _ => apply Z.leb_le in H
  | H : (_ <=? _) = false |- _ => apply Z.leb_gt in H
  | H : (_ =? _) = true |- _ => apply Z.eqb_eq in H
  | H : (_ =? _) = false |- _ => apply Z.eqb_neq in H
  end.

Lemma bchr_ok (x : Z) : 0 <= x < 256 -> bchr x = Ok [byte_of_Z x].
Proof.
  intros H. unfold bchr.
  destruct (0 <=? x) eqn:E1, (x <? 256) eqn:E2; zbool; try lia. reflexivity.
Qed.

Lemma pack_unsigned_ok (w : nat) (v : Z) :
  0 <= v < 2 ^ (8 * Z.of_nat w) -> struct.pack_unsigned w v = Ok (le_bytes w v).
Proof.
  intros H. unfold struct.pack_unsigned.
  destruct (0 <=? v) eqn:E1, (v <? _) eqn:E2; zbool; try lia. reflexivity.
Qed.

Lemma unpack_unsigned_ok (w : nat) (s : bytes) :
  length s = w -> struct.unpack_unsigned w s = Ok [le_int s].
Proof.
  intros H. unfold struct.unpack_unsigned. now rewrite H, Nat.eqb_refl.
Qed.

Lemma stream_serialize_tier (i : Z) (pre : bytes) :
  0 <= i < 2 ^ 64 ->
  VarIntSerializer.stream_serialize i (cursor pre [])
  = (Ok tt, cursor (pre ++ varint_tier i) []).
Proof.
  intros Hi. unfold VarIntSerializer.stream_serialize, varint_tier.
  destruct (i <? 0) eqn:E0; zbool; [lia|].
  destruct (i <? 0xfd) eqn:E1; zbool.
  - unfold bind at 1, lift. rewrite bchr_ok by lia.
    unfold bind, ret. now rewrite write_cursor.
  - destruct (i <=? 0xffff) eqn:E2; zbool;
      [|destruct (i <=? 0xffffffff) eqn:E3; zbool].
    + unfold bind at 1, lift. rewrite bchr_ok by lia.
      change (byte_of_Z 0xfd) with xfd.
      unfold bind at 1. rewrite write_cursor.
      unfold bind at 1, struct.pack_H.
      rewrite pack_unsigned_ok by (change (2 ^ (8 * Z.of_nat 2)) with 65536; lia).
      unfold bind, ret. rewrite write_cursor. now rewrite <- app_assoc.
    + unfold bind at 1, lift. rewrite bchr_ok by lia.
      change (byte_of_Z 0xfe) with xfe.
      unfold bind at 1. rewrite write_cursor.
      unfold bind at 1, struct.pack_I.
      rewrite pack_unsigned_ok
        by (change (2 ^ (8 * Z.of_nat 4)) with 4294967296; lia).
      unfold bind, ret. rewrite write_cursor. now rewrite <- app_assoc.
    + unfold bind at 1, lift. rewrite bchr_ok by lia.
      change (byte_of_Z 0xff) with xff.
      unfold bind at 1. rewrite write_cursor.
      unfold bind at 1, struct.pack_Q.
      rewrite pack_unsigned_ok by (change (8 * Z.of_nat 8) with 64; lia).
      unfold bind, ret. rewrite write_cursor. now rewrite <- app_assoc.
Qed.

(** ** VarInt: what the decoder reads *)

Lemma stream_deserialize_byte (pre rest : bytes) (b : byte) :
  Z_of_byte b < 0xfd ->
  VarIntSerializer.stream_deserialize (cursor pre (b :: rest))
  = (Ok (Z_of_byte b), cursor (pre ++ [b]) rest).
Proof.
  intros Hb. unfold VarIntSerializer.stream_deserialize.
  unfold bind at 1. change (b :: rest) with ([b] ++ rest).
  rewrite (ser_read_exact 1 pre [b] rest) by (reflexivity || (unfold MAX_SIZE; lia)).
  unfold bind, lift, bord, ret.
  destruct (Z_of_byte b <? 0xfd) eqn:E; zbool; [reflexivity | lia].
Qed.

Lemma stream_deserialize_marker (pre rest : bytes) (m : byte) (p : bytes) :
  (m = xfd /\ length p = 2%nat) \/ (m = xfe /\ length p = 4%nat) \/
  (m = xff /\ length p = 8%nat) ->
  VarIntSerializer.stream_deserialize (cursor pre (m :: p ++ rest))
  = (Ok (le_int p), cursor (pre ++ m :: p) rest).
Proof.
  intros H. unfold VarIntSerializer.stream_deserialize.
  unfold bind at 1. change (m :: p ++ rest) with ([m] ++ p ++ rest).
  rewrite (ser_read_exact 1 pre [m] (p ++ rest))
    by (reflexivity || (unfold MAX_SIZE; lia)).
  unfold bind at 1, lift, bord.
  replace (cursor (pre ++ m :: p) rest) with (cursor ((pre ++ [m]) ++ p) rest)
    by (now rewrite <- app_assoc).
  destruct H as [[-> Hp] | [[-> Hp] | [-> Hp]]].
  - change (Z_of_byte xfd) with 253. cbn [Z.ltb Z.eqb Z.compare Pos.compare
      Pos.compare_cont Pos.eqb].
    unfold bind at 1.
    rewrite (ser_read_exact 2 (pre ++ [xfd]) p rest)
      by ((unfold len; lia) || (unfold MAX_SIZE; lia)).
    unfold bind, lift, struct.unpack_H. now rewrite unpack_unsigned_ok.
  - change (Z_of_byte xfe) with 254. cbn [Z.ltb Z.eqb Z.compare Pos.compare
      Pos.compare_cont Pos.eqb].
    unfold bind at 1.
    rewrite (ser_read_exact 4 (pre ++ [xfe]) p rest)
      by ((unfold len; lia) || (unfold MAX_SIZE; lia)).
    unfold bind, lift, struct.unpack_I. now rewrite unpack_unsigned_ok.
  - change (Z_of_byte xff) with 255. cbn [Z.ltb Z.eqb Z.compare Pos.compare
      Pos.compare_cont Pos.eqb].
    unfold bind at 1.
    rewrite (ser_read_exact 8 (pre ++ [xff]) p rest)
      by ((unfold len; lia) || (unfold MAX_SIZE; lia)).
    unfold bind, lift, struct.unpack_Q. now rewrite unpack_unsigned_ok.
Qed.

(** The decoder inverts the tabulated encoding, whatever follows it. *)
Lemma stream_deserialize_tier (i : Z) (pre rest : bytes) :
  0 <= i < 2 ^ 64 ->
  VarIntSerializer.stream_deserialize (cursor pre (varint_tier i ++ rest))
  = (Ok i, cursor (pre ++ varint_tier i) rest).
Proof.
  intros Hi. unfold varint_tier.
  destruct (i <? 0xfd) eqn:E1; zbool.
  - cbn [app]. rewrite stream_deserialize_byte;
      rewrite Z_of_byte_of_Z, Z.mod_small by lia; [reflexivity | lia].
  - destruct (i <=? 0xffff) eqn:E2; zbool;
      [|destruct (i <=? 0xffffffff) eqn:E3; zbool].
    + rewrite <- app_comm_cons, stream_deserialize_marker
        by (left; split; [reflexivity | apply le_bytes_length]).
      rewrite le_int_le_bytes_small
        by (change (2 ^ (8 * Z.of_nat 2)) with 65536; lia).
      reflexivity.
    + rewrite <- app_comm_cons, stream_deserialize_marker
        by (right; left; split; [reflexivity | apply le_bytes_length]).
      rewrite le_int_le_bytes_small
        by (change (2 ^ (8 * Z.of_nat 4)) with 4294967296; lia).
      reflexivity.
    + rewrite <- app_comm_cons, stream_deserialize_marker
        by (right; right; split; [reflexivity | apply le_bytes_length]).
      rewrite le_int_le_bytes_small by (change (8 * Z.of_nat 8) with 64; lia).
      reflexivity.
Qed.

Lemma serialize_tier (i : Z) :
  0 <= i < 2 ^ 64 -> VarIntSerializer.serialize i = Ok (varint_tier i).
Proof.
  intros Hi. unfold VarIntSerializer.serialize, Serializer.serialize.
  cbn [Serializer.stream_serialize VarIntSerializer.cls].
  rewrite BytesIO_new_cursor, stream_serialize_tier by exact Hi.
  unfold getvalue, cursor. cbn [buf app]. now rewrite app_nil_r.
Qed.

Lemma deserialize_tier (i : Z) (t : bytes) :
  0 <= i < 2 ^ 64 -> VarIntSerializer.deserialize (varint_tier i ++ t) = Ok i.
Proof.
  intros Hi. unfold VarIntSerializer.deserialize, Serializer.deserialize.
  cbn [Serializer.stream_deserialize VarIntSerializer.cls].
  rewrite BytesIO_new_cursor, stream_deserialize_tier by exact Hi.
  reflexivity.
Qed.

(** ** The claims on [ser_read] *)

(** C3. Oversize rejection: a request for more than [MAX_SIZE] = 0x02000000
    bytes raises [SerializationError] and leaves the stream exactly as it
    was, no read having been made; a request of [0 <= n <= MAX_SIZE] bytes,
    of [MAX_SIZE] bytes in particular, passes that check: it either returns
    or raises the truncation error. *)
Theorem ser_read_oversize (f : BytesIO) (n : Z) :
  MAX_SIZE = 33554432 /\
  (n > MAX_SIZE ->
   ser_read n f =
   (Raise (SerializationError "Asked to read 0x%x bytes; MAX_SIZE exceeded"),
    f)) /\
  (0 <= n <= MAX_SIZE ->
   (exists r f', ser_read n f = (Ok r, f')) \/
   (exists msg f',
      ser_read n f = (Raise (SerializationTruncationError msg), f'))).
Proof.
  split; [reflexivity|]. split; intros H.
  - rewrite ser_read_unfold by (unfold MAX_SIZE in H; lia).
    destruct (n >? MAX_SIZE) eqn:E; [reflexivity|].
    destruct (Z.gtb_spec n MAX_SIZE); [discriminate | lia].
  - rewrite ser_read_unfold by lia.
    destruct (n >? MAX_SIZE) eqn:E.
    + destruct (Z.gtb_spec n MAX_SIZE); [lia | discriminate].
    + cbv zeta. destruct (len _ <? n); [right | left]; eauto.
Qed.

Lemma ser_read_oversize_witness :
  ser_read 0x02000001 (BytesIO_new [x01; x02; x03])
  = (Raise (SerializationError "Asked to read 0x%x bytes; MAX_SIZE exceeded"),
     BytesIO_new [x01; x02; x03])
  /\
  ((exists r f', ser_read 0x02000000 (BytesIO_new [x01; x02; x03]) = (Ok r, f'))
   \/
   (exists msg f',
      ser_read 0x02000000 (BytesIO_new [x01; x02; x03])
      = (Raise (SerializationTruncationError msg), f'))).
Proof.
  split.
  - apply (ser_read_oversize (BytesIO_new [x01; x02; x03]) 0x02000001).
    reflexivity.
  - apply (ser_read_oversize (BytesIO_new [x01; x02; x03]) 0x02000000).
    split; discriminate.
Defined.

(** C4. Truncation detection: when fewer than [n] bytes are left on the
    stream, [n] within the ceiling, [ser_read] raises
    [SerializationTruncationError] with a message made of [n] and of the
    number of bytes it got, the cursor then standing at the end of what was
    read; that exception is not a [SerializationError], and the oversize
    exception is not a [SerializationTruncationError]. *)
Theorem ser_read_truncated (f : BytesIO) (n : Z) :
  n <= MAX_SIZE ->
  len (remaining f) < n ->
  ser_read n f =
  (Raise (SerializationTruncationError (truncation_msg n (len (remaining f)))),
   {| buf := buf f; pos := pos f + length (remaining f) |}) /\
  (forall msg,
     caught_by (SerializationTruncationError msg) C_SerializationError = false
     /\ caught_by (SerializationError msg) C_SerializationTruncationError
        = false).
Proof.
  intros Hmax Hshort. split; [|intros msg; split; reflexivity].
  pose proof (len_nonneg (remaining f)) as Hnn.
  rewrite ser_read_unfold by lia.
  destruct (n >? MAX_SIZE) eqn:E.
  { destruct (Z.gtb_spec n MAX_SIZE); [lia | discriminate]. }
  destruct (n <? 0) eqn:E0; zbool; [lia|].
  rewrite firstn_all2 by (unfold len in Hshort; lia).
  cbv zeta. destruct (len (remaining f) <? n) eqn:E1; zbool; [reflexivity|lia].
Qed.

Lemma ser_read_truncated_witness :
  ser_read 5 (BytesIO_new [x01; x02; x03]) =
  (Raise (SerializationTruncationError
            "Asked to read 5 bytes, but only got 3"),
   {| buf := [x01; x02; x03]; pos := 3 |}).
Proof.
  apply (ser_read_truncated (BytesIO_new [x01; x02; x03]) 5).
  - discriminate.
  - reflexivity.
Defined.

(** ** The claims on the VarInt codec *)

(** C1. VarInt round trip: for [0 <= i <= 2^64 - 1], [stream_serialize]
    writes some bytes [e] at the end of the stream and returns, and
    [stream_deserialize], started where [e] begins, returns [i] with the
    cursor after [e]; so [deserialize (serialize i)] is [i]. *)
Theorem varint_round_trip (i : Z) :
  0 <= i <= 2 ^ 64 - 1 ->
  exists e,
    (forall pre,
       VarIntSerializer.stream_serialize i (cursor pre [])
       = (Ok tt, cursor (pre ++ e) [])) /\
    (forall pre rest,
       VarIntSerializer.stream_deserialize (cursor pre (e ++ rest))
       = (Ok i, cursor (pre ++ e) rest)) /\
    VarIntSerializer.serialize i = Ok e /\
    VarIntSerializer.deserialize e = Ok i.
Proof.
  intros Hi. assert (Hi' : 0 <= i < 2 ^ 64) by lia.
  exists (varint_tier i). repeat split.
  - intros pre. now apply stream_serialize_tier.
  - intros pre rest. now apply stream_deserialize_tier.
  - now apply serialize_tier.
  - rewrite <- (app_nil_r (varint_tier i)). now apply deserialize_tier.
Qed.

Lemma varint_round_trip_witness :
  exists e,
    (forall pre,
       VarIntSerializer.stream_serialize (2 ^ 64 - 1) (cursor pre [])
       = (Ok tt, cursor (pre ++ e) [])) /\
    (forall pre rest,
       VarIntSerializer.stream_deserialize (cursor pre (e ++ rest))
       = (Ok (2 ^ 64 - 1), cursor (pre ++ e) rest)) /\
    VarIntSerializer.serialize (2 ^ 64 - 1) = Ok e /\
    VarIntSerializer.deserialize e = Ok (2 ^ 64 - 1).
Proof.
  apply (varint_round_trip (2 ^ 64 - 1)). split; [discriminate | reflexivity].
Defined.

(** C2, as the code has it. VarInt minimality on the unsigned 64-bit range:
    for [0 <= i <= 2^64 - 1], [stream_serialize] writes one byte holding
    [i] when [i < 0xfd]; the marker [0xfd] and two bytes when
    [0xfd <= i <= 0xffff]; the marker [0xfe] and four bytes when
    [0x10000 <= i <= 0xffffffff]; the marker [0xff] and eight bytes when
    [i > 0xffffffff]; the bytes after a marker are [i], least significant
    byte first. *)
Theorem varint_smallest_tier (i : Z) (pre : bytes) :
  0 <= i <= 2 ^ 64 - 1 ->
  exists e,
    VarIntSerializer.stream_serialize i (cursor pre [])
    = (Ok tt, cursor (pre ++ e) []) /\
    (i < 0xfd -> exists b, e = [b] /\ Z_of_byte b = i) /\
    (0xfd <= i <= 0xffff ->
     exists p, e = xfd :: p /\ length p = 2%nat /\ le_int p = i) /\
    (0x10000 <= i <= 0xffffffff ->
     exists p, e = xfe :: p /\ length p = 4%nat /\ le_int p = i) /\
    (i > 0xffffffff ->
     exists p, e = xff :: p /\ length p = 8%nat /\ le_int p = i).
Proof.
  intros Hi. exists (varint_tier i).
  split; [apply stream_serialize_tier; lia|].
  unfold varint_tier.
  destruct (i <? 0xfd) eqn:E1; zbool;
    [|destruct (i <=? 0xffff) eqn:E2; zbool;
      [|destruct (i <=? 0xffffffff) eqn:E3; zbool]];
    repeat split; intros H; try lia.
  - exists (byte_of_Z i). split; [reflexivity|].
    rewrite Z_of_byte_of_Z. apply Z.mod_small. lia.
  - exists (le_bytes 2 i). repeat split.
    apply le_int_le_bytes_small.
    change (2 ^ (8 * Z.of_nat 2)) with 65536. lia.
  - exists (le_bytes 4 i). repeat split.
    apply le_int_le_bytes_small.
    change (2 ^ (8 * Z.of_nat 4)) with 4294967296. lia.
  - exists (le_bytes 8 i). repeat split.
    apply le_int_le_bytes_small.
    change (8 * Z.of_nat 8) with 64. lia.
Qed.

Lemma varint_smallest_tier_witness :
  exists e,
    VarIntSerializer.stream_serialize 0xfd (cursor [] [])
    = (Ok tt, cursor ([] ++ e) []) /\
    (0xfd < 0xfd -> exists b, e = [b] /\ Z_of_byte b = 0xfd) /\
    (0xfd <= 0xfd <= 0xffff ->
     exists p, e = xfd :: p /\ length p = 2%nat /\ le_int p = 0xfd) /\
    (0x10000 <= 0xfd <= 0xffffffff ->
     exists p, e = xfe :: p /\ length p = 4%nat /\ le_int p = 0xfd) /\
    (0xfd > 0xffffffff ->
     exists p, e = xff :: p /\ length p = 8%nat /\ le_int p = 0xfd).
Proof.
  apply (varint_smallest_tier 0xfd []). split; discriminate.
Defined.

(** C2, as stated, fails above the unsigned 64-bit range: [2^64] is a
    non-negative integer greater than [0xffffffff], and [stream_serialize]
    raises [struct.error] on it, having written the marker byte alone. *)
Lemma varint_tier_above_uint64 :
  0 <= 2 ^ 64 /\ 2 ^ 64 > 0xffffffff /\
  VarIntSerializer.stream_serialize (2 ^ 64) (BytesIO_new [])
  = (Raise struct_error, {| buf := [xff]; pos := 1 |}) /\
  VarIntSerializer.serialize (2 ^ 64) = Raise struct_error /\
  ~ (exists p f',
       VarIntSerializer.stream_serialize (2 ^ 64) (BytesIO_new [])
       = (Ok tt, f') /\
       buf f' = xff :: p /\ length p = 8%nat /\ le_int p = 2 ^ 64).
Proof.
  split; [discriminate|]. split; [reflexivity|].
  split; [reflexivity|]. split; [reflexivity|].
  intros (p & f' & H & _). discriminate H.
Qed.

(** C8. The decoder accepts every tier: it reads one byte and returns it
    when it is below [0xfd]; after the marker [0xfd], [0xfe] or [0xff] it
    reads two, four or eight bytes and returns them as a little-endian
    integer, whatever their value; so every value that fits a tier decodes
    from that tier, minimal or not, and [0xfd 0x05 0x00] decodes to 5. *)
Theorem varint_decode_any_tier :
  (forall pre rest b,
     Z_of_byte b < 0xfd ->
     VarIntSerializer.stream_deserialize (cursor pre (b :: rest))
     = (Ok (Z_of_byte b), cursor (pre ++ [b]) rest)) /\
  (forall pre rest p m,
     (m = xfd /\ length p = 2%nat) \/ (m = xfe /\ length p = 4%nat) \/
     (m = xff /\ length p = 8%nat) ->
     VarIntSerializer.stream_deserialize (cursor pre (m :: p ++ rest))
     = (Ok (le_int p), cursor (pre ++ m :: p) rest)) /\
  (forall v, 0 <= v <= 0xffff ->
             VarIntSerializer.deserialize (xfd :: le_bytes 2 v) = Ok v) /\
  (forall v, 0 <= v <= 0xffffffff ->
             VarIntSerializer.deserialize (xfe :: le_bytes 4 v) = Ok v) /\
  (forall v, 0 <= v <= 2 ^ 64 - 1 ->
             VarIntSerializer.deserialize (xff :: le_bytes 8 v) = Ok v) /\
  VarIntSerializer.deserialize [xfd; x05; x00] = Ok 5.
Proof.
  assert (D : forall m w v,
    (m = xfd /\ w = 2%nat) \/ (m = xfe /\ w = 4%nat) \/ (m = xff /\ w = 8%nat) ->
    0 <= v < 2 ^ (8 * Z.of_nat w) ->
    VarIntSerializer.deserialize (m :: le_bytes w v) = Ok v).
  { intros m w v Hm Hv.
    unfold VarIntSerializer.deserialize, Serializer.deserialize.
    cbn [Serializer.stream_deserialize VarIntSerializer.cls].
    rewrite BytesIO_new_cursor, <- (app_nil_r (le_bytes w v)).
    rewrite stream_deserialize_marker.
    - cbn [fst]. now rewrite le_int_le_bytes_small.
    - rewrite le_bytes_length. exact Hm. }
  split; [exact stream_deserialize_byte|].
  split; [intros pre rest p m H; now apply stream_deserialize_marker|].
  split; [|split; [|split]].
  - intros v Hv. apply D; [tauto|].
    change (2 ^ (8 * Z.of_nat 2)) with 65536. lia.
  - intros v Hv. apply D; [tauto|].
    change (2 ^ (8 * Z.of_nat 4)) with 4294967296. lia.
  - intros v Hv. apply D; [tauto|].
    change (8 * Z.of_nat 8) with 64. lia.
  - reflexivity.
Qed.

Lemma varint_decode_any_tier_witness :
  VarIntSerializer.stream_deserialize
    (cursor [x00] (xfe :: [x05; x00; x00; x00] ++ [x07]))
  = (Ok 5, cursor ([x00] ++ xfe :: [x05; x00; x00; x00]) [x07]) /\
  VarIntSerializer.deserialize (xff :: le_bytes 8 5) = Ok 5.
Proof.
  destruct varint_decode_any_tier as (_ & Hm & _ & _ & H8 & _).
  split.
  - apply (Hm [x00] [x07] [x05; x00; x00; x00] xfe).
    right; left; split; reflexivity.
  - apply (H8 5). split; discriminate.
Defined.

(** C9. VarInt negative rejection: for every negative [i],
    [stream_serialize] raises [ValueError] and the stream is left exactly
    as it was; [serialize] raises the same and returns no encoding. *)
Theorem varint_negative_rejected (i : Z) (f : BytesIO) :
  i < 0 ->
  VarIntSerializer.stream_serialize i f
  = (Raise (ValueError "varint must be non-negative integer"), f) /\
  VarIntSerializer.serialize i
  = Raise (ValueError "varint must be non-negative integer").
Proof.
  intros Hi.
  assert (H : forall g, VarIntSerializer.stream_serialize i g
    = (Raise (ValueError "varint must be non-negative integer"), g)).
  { intros g. unfold VarIntSerializer.stream_serialize.
    destruct (i <? 0) eqn:E; zbool; [reflexivity | lia]. }
  split; [apply H|].
  unfold VarIntSerializer.serialize, Serializer.serialize.
  cbn [Serializer.stream_serialize VarIntSerializer.cls]. now rewrite H.
Qed.

Lemma varint_negative_rejected_witness :
  VarIntSerializer.stream_serialize (-1) (cursor [x2a] [])
  = (Raise (ValueError "varint must be non-negative integer"),
     cursor [x2a] []) /\
  VarIntSerializer.serialize (-1)
  = Raise (ValueError "varint must be non-negative integer").
Proof.
  apply (varint_negative_rejected (-1) (cursor [x2a] [])). reflexivity.
Defined.

(** ** Decoding loops *)

Lemma bind_ok_inv {A B : Type} (m : io A) (k : A -> io B) f y f'' :
  bind m k f = (Ok y, f'') ->
  exists x f', m f = (Ok x, f') /\ k x f' = (Ok y, f'').
Proof.
  unfold bind. destruct (m f) as [[x|e] f']; [eauto | discriminate].
Qed.

Lemma bind_ok {A B : Type} (m : io A) (k : A -> io B) f x f' :
  m f = (Ok x, f') -> bind m k f = k x f'.
Proof. intros H. unfold bind. now rewrite H. Qed.

Lemma bind_raise {A B : Type} (m : io A) (k : A -> io B) f e f' :
  m f = (Raise e, f') -> bind m k f = (Raise e, f').
Proof. intros H. unfold bind. now rewrite H. Qed.

Lemma iterate_ext {S : Type} (body1 body2 : S -> io S) :
  (forall s f, body1 s f = body2 s f) ->
  forall k s f, iterate k body1 s f = iterate k body2 s f.
Proof.
  intros Hb k. induction k as [|k IH]; intros s f; [reflexivity|].
  cbn [iterate]. unfold bind. rewrite Hb.
  destruct (body2 s f) as [[s'|e] f1]; [apply IH | reflexivity].
Qed.

Section AppendLoop.

Context {B : Type} (inner : io B).

Let body (r : list B) : io (list B) := x <- inner ;; ret (append r x).

Lemma run_length k f xs f' : run inner k f xs f' -> length xs = k.
Proof. induction 1; simpl; congruence. Qed.

Lemma run_functional k f xs f' :
  run inner k f xs f' ->
  forall ys g, run inner k f ys g -> ys = xs /\ g = f'.
Proof.
  induction 1 as [f | k f x f1 xs f' Hx Hr IH]; intros ys g Hg.
  - inversion Hg; subst. split; reflexivity.
  - inversion Hg as [| k' f0 y g1 ys' g' Hy Hr']; subst.
    rewrite Hx in Hy. injection Hy as <- <-.
    destruct (IH _ _ Hr') as [-> ->]. split; reflexivity.
Qed.

Lemma iterate_run k f xs f' :
  run inner k f xs f' ->
  forall r0, iterate k body r0 f = (Ok (r0 ++ xs), f').
Proof.
  induction 1 as [f | k f x f1 xs f' Hx Hr IH]; intros r0.
  - simpl. unfold ret. now rewrite app_nil_r.
  - cbn [iterate]. unfold body at 1.
    rewrite (bind_ok _ _ f (append r0 x) f1)
      by (now rewrite (bind_ok _ _ _ _ _ Hx)).
    rewrite IH. unfold append. now rewrite <- app_assoc.
Qed.

Lemma iterate_ok_inv k :
  forall r0 f xs f',
    iterate k body r0 f = (Ok xs, f') ->
    exists ys, xs = r0 ++ ys /\ run inner k f ys f'.
Proof.
  induction k as [|k IH]; intros r0 f xs f' H.
  - injection H as <- <-. exists []. split; [now rewrite app_nil_r|].
    constructor.
  - cbn [iterate] in H. apply bind_ok_inv in H as (r1 & f1 & Hb & H).
    unfold body in Hb. apply bind_ok_inv in Hb as (x & f2 & Hx & Hret).
    injection Hret as <- <-.
    apply IH in H as (ys & -> & Hr). exists (x :: ys). split.
    + unfold append. now rewrite <- app_assoc.
    + econstructor; eassumption.
Qed.

Lemma iterate_raise k f xs fk :
  run inner k f xs fk ->
  forall e fk' j r0,
    inner fk = (Raise e, fk') ->
    iterate (k + S j) body r0 f = (Raise e, fk').
Proof.
  induction 1 as [f | k f x f1 xs f' Hx Hr IH]; intros e fk' j r0 He.
  - cbn [Nat.add iterate]. apply bind_raise. unfold body.
    now apply bind_raise.
  - cbn [Nat.add iterate].
    rewrite (bind_ok _ _ f (append r0 x) f1).
    + now apply IH.
    + unfold body. now rewrite (bind_ok _ _ _ _ _ Hx).
Qed.

End AppendLoop.

Lemma ser_read_ok_len (n : Z) (f f' : BytesIO) (r : bytes) :
  0 <= n -> ser_read n f = (Ok r, f') -> len r = n.
Proof.
  intros Hn. rewrite ser_read_unfold by lia.
  destruct (n >? MAX_SIZE); [discriminate|].
  destruct (n <? 0) eqn:E0; zbool; [lia|].
  cbv zeta. destruct (len _ <? n) eqn:E; [discriminate|]. zbool.
  intros H. injection H as <- _.
  unfold len in *. rewrite length_firstn in *. lia.
Qed.

Lemma unpack_unsigned_inv (w : nat) (s : bytes) (t : list Z) (v : Z) :
  struct.unpack_unsigned w s = Ok t -> item0 t = Ok v ->
  0 <= v < 2 ^ (8 * Z.of_nat w).
Proof.
  unfold struct.unpack_unsigned.
  destruct (length s =? w)%nat eqn:E; [|discriminate].
  apply Nat.eqb_eq in E. intros H. injection H as <-. simpl.
  intros H. injection H as <-. rewrite <- E. apply le_int_range.
Qed.

(** A decoded VarInt is an unsigned 64-bit integer. *)
Lemma stream_deserialize_range (f f' : BytesIO) (n : Z) :
  VarIntSerializer.stream_deserialize f = (Ok n, f') -> 0 <= n < 2 ^ 64.
Proof.
  unfold VarIntSerializer.stream_deserialize. intros H.
  apply bind_ok_inv in H as (s & f1 & _ & H).
  apply bind_ok_inv in H as (r & f2 & Hr & H).
  unfold lift in Hr. injection Hr as Hr <-.
  destruct s as [|b s]; [discriminate|]. injection Hr as <-.
  pose proof (Z_of_byte_range b) as Hb.
  destruct (Z_of_byte b <? 0xfd) eqn:E1.
  { injection H as <- _. lia. }
  destruct (Z_of_byte b =? 0xfd) eqn:E2;
    [|destruct (Z_of_byte b =? 0xfe) eqn:E3];
    apply bind_ok_inv in H as (s' & f3 & _ & H);
    apply bind_ok_inv in H as (t & f4 & Ht & H);
    unfold lift in Ht, H; injection Ht as Ht _; injection H as H _;
    pose proof (unpack_unsigned_inv _ _ _ _ Ht H) as Hv;
    cbn [Z.of_nat Pos.of_succ_nat Pos.succ Z.mul Pos.mul Pos.add] in Hv.
  - change (2 ^ 16) with 65536 in Hv. lia.
  - change (2 ^ 32) with 4294967296 in Hv. lia.
  - exact Hv.
Qed.

(** ** The claim on [VectorSerializer] *)

(** C5. Generic vector decode: [VectorSerializer.stream_deserialize] returns
    [xs] exactly when the VarInt count [n] is read and then [n] element
    deserializations in a row return the elements of [xs], in order, so
    [xs] has [n] elements; when one of the [n] element deserializations
    raises, after any number of earlier ones returned, the whole decode
    raises that exception and returns no list; so does a failure to read
    the count. *)
Theorem vector_decode_exact {A B : Type} (inner_cls : Serializer.class A B)
    (f : BytesIO) :
  (forall xs f',
     VectorSerializer.stream_deserialize inner_cls f = (Ok xs, f') <->
     exists n f1,
       VarIntSerializer.stream_deserialize f = (Ok n, f1) /\
       run (Serializer.stream_deserialize inner_cls) (Z.to_nat n) f1 xs f' /\
       len xs = n) /\
  (forall n f1 k xs fk e fk',
     VarIntSerializer.stream_deserialize f = (Ok n, f1) ->
     (k < Z.to_nat n)%nat ->
     run (Serializer.stream_deserialize inner_cls) k f1 xs fk ->
     Serializer.stream_deserialize inner_cls fk = (Raise e, fk') ->
     VectorSerializer.stream_deserialize inner_cls f = (Raise e, fk')) /\
  (forall e f1,
     VarIntSerializer.stream_deserialize f = (Raise e, f1) ->
     VectorSerializer.stream_deserialize inner_cls f = (Raise e, f1)).
Proof.
  unfold VectorSerializer.stream_deserialize, for_range.
  split; [|split].
  - intros xs f'. split.
    + intros H. apply bind_ok_inv in H as (n & f1 & Hn & H).
      apply iterate_ok_inv in H as (ys & -> & Hr).
      exists n, f1. cbn [app]. repeat split; try assumption.
      apply stream_deserialize_range in Hn.
      apply run_length in Hr. unfold len. lia.
    + intros (n & f1 & Hn & Hr & _).
      rewrite (bind_ok _ _ _ _ _ Hn).
      now rewrite (iterate_run _ _ _ _ _ Hr).
  - intros n f1 k xs fk e fk' Hn Hk Hr He.
    rewrite (bind_ok _ _ _ _ _ Hn).
    replace (Z.to_nat n) with (k + S (Z.to_nat n - S k))%nat by lia.
    now apply (iterate_raise _ _ _ _ _ Hr).
  - intros e f1 He. now apply bind_raise.
Qed.

(** A count of three, two elements and a third one cut short: the decode
    raises what the third element raises. *)
Lemma vector_decode_exact_witness :
  VectorSerializer.stream_deserialize VarIntSerializer.cls
    (BytesIO_new [x03; x01; x02; xfd])
  = (Raise (SerializationTruncationError
              "Asked to read 2 bytes, but only got 0"),
     {| buf := [x03; x01; x02; xfd]; pos := 4 |}).
Proof.
  destruct (vector_decode_exact VarIntSerializer.cls
              (BytesIO_new [x03; x01; x02; xfd])) as (_ & H & _).
  apply (H 3 {| buf := [x03; x01; x02; xfd]; pos := 1 |} 2%nat [1; 2]
           {| buf := [x03; x01; x02; xfd]; pos := 3 |}).
  - reflexivity.
  - apply le_n.
  - eapply run_S; [reflexivity|]. eapply run_S; [reflexivity|]. apply run_O.
  - reflexivity.
Defined.

(** ** Decoders that look at a prefix only *)

Lemma prefix_ret {A : Type} (a : A) : prefix_decoder (ret a).
Proof.
  intros pre rest x f' H. injection H as <- <-. exists [], rest.
  rewrite app_nil_r.
  split; [reflexivity | split; [reflexivity | intros t; reflexivity]].
Qed.

Lemma prefix_lift {A : Type} (r : result A) : prefix_decoder (lift r).
Proof.
  intros pre rest x f' H. unfold lift in *. injection H as -> <-.
  exists [], rest. rewrite app_nil_r.
  split; [reflexivity | split; [reflexivity | intros t; reflexivity]].
Qed.

Lemma prefix_ser_read (n : Z) : 0 <= n -> prefix_decoder (ser_read n).
Proof.
  intros Hn pre rest r f' H.
  apply ser_read_ok_inv in H as (rest' & -> & Hl & Hmax & ->); [|exact Hn].
  exists r, rest'.
  split; [reflexivity | split; [reflexivity | intros t]].
  apply ser_read_exact; assumption.
Qed.

Lemma prefix_bind {A B : Type} (m : io A) (k : A -> io B) (Q : A -> Prop) :
  prefix_decoder m ->
  (forall f x f', m f = (Ok x, f') -> Q x) ->
  (forall x, Q x -> prefix_decoder (k x)) ->
  prefix_decoder (bind m k).
Proof.
  intros Pm HQ Pk pre rest y f'' H.
  apply bind_ok_inv in H as (x & f1 & Hm & Hk).
  pose proof (HQ _ _ _ Hm) as Hx.
  apply Pm in Hm as (u1 & r1 & -> & -> & Hm).
  apply (Pk x Hx) in Hk as (u2 & r2 & -> & -> & Hk).
  exists (u1 ++ u2), r2. rewrite !app_assoc.
  split; [reflexivity | split; [reflexivity | intros t]].
  rewrite <- !app_assoc, (bind_ok _ _ _ _ _ (Hm (u2 ++ t))).
  rewrite Hk. now rewrite <- app_assoc.
Qed.

Lemma prefix_bind_all {A B : Type} (m : io A) (k : A -> io B) :
  prefix_decoder m -> (forall x, prefix_decoder (k x)) ->
  prefix_decoder (bind m k).
Proof.
  intros Pm Pk. apply (prefix_bind m k (fun _ => True)); auto.
Qed.

Lemma prefix_iterate {S : Type} (body : S -> io S) :
  (forall s, prefix_decoder (body s)) ->
  forall k s, prefix_decoder (iterate k body s).
Proof.
  intros Pb k. induction k as [|k IH]; intros s; cbn [iterate].
  - apply prefix_ret.
  - apply prefix_bind_all; [apply Pb | exact IH].
Qed.

Lemma prefix_varint : prefix_decoder VarIntSerializer.stream_deserialize.
Proof.
  unfold VarIntSerializer.stream_deserialize.
  apply prefix_bind_all; [apply prefix_ser_read; lia|]. intros s.
  apply prefix_bind_all; [apply prefix_lift|]. intros r.
  destruct (r <? 0xfd); [apply prefix_ret|].
  destruct (r =? 0xfd); [|destruct (r =? 0xfe)];
    (apply prefix_bind_all; [apply prefix_ser_read; lia|]; intros s';
     apply prefix_bind_all; [apply prefix_lift|]; intros t;
     apply prefix_lift).
Qed.

Lemma prefix_length_prefixed :
  prefix_decoder (l <- VarIntSerializer.stream_deserialize ;; ser_read l).
Proof.
  apply (prefix_bind _ _ (fun l => 0 <= l)).
  - apply prefix_varint.
  - intros f x f' H. apply stream_deserialize_range in H. lia.
  - intros l Hl. now apply prefix_ser_read.
Qed.

Lemma prefix_vector {A B : Type} (inner_cls : Serializer.class A B) :
  prefix_decoder (Serializer.stream_deserialize inner_cls) ->
  prefix_decoder (VectorSerializer.stream_deserialize inner_cls).
Proof.
  intros Pi. unfold VectorSerializer.stream_deserialize, for_range.
  apply prefix_bind_all; [apply prefix_varint|]. intros n.
  apply prefix_iterate. intros r.
  apply prefix_bind_all; [exact Pi|]. intros x. apply prefix_ret.
Qed.

Lemma prefix_uint256_vector :
  prefix_decoder uint256VectorSerializer.stream_deserialize.
Proof.
  unfold uint256VectorSerializer.stream_deserialize, for_range.
  apply prefix_bind_all; [apply prefix_varint|]. intros n.
  apply prefix_iterate. intros r.
  apply prefix_bind_all; [apply prefix_ser_read; lia|]. intros x.
  apply prefix_ret.
Qed.

(** What a prefix decoder returns on a buffer it returns on any extension
    of that buffer. *)
Lemma prefix_decoder_buffer {A : Type} (m : io A) (e t : bytes) (x : A) :
  prefix_decoder m ->
  fst (m (BytesIO_new e)) = Ok x -> fst (m (BytesIO_new (e ++ t))) = Ok x.
Proof.
  intros Pm H. rewrite BytesIO_new_cursor in *.
  destruct (m (cursor [] e)) as [r f'] eqn:E. cbn [fst] in H. subst r.
  apply Pm in E as (used & rest' & -> & _ & E).
  now rewrite <- app_assoc, E.
Qed.

(** ** Length-prefixed bytes *)

Lemma bytes_stream_serialize (b pre : bytes) :
  len b < 2 ^ 64 ->
  BytesSerializer.stream_serialize b (cursor pre [])
  = (Ok tt, cursor (pre ++ varint_tier (len b) ++ b) []).
Proof.
  intros Hb. unfold BytesSerializer.stream_serialize.
  pose proof (len_nonneg b) as Hnn.
  rewrite (bind_ok _ _ _ _ _ (stream_serialize_tier (len b) pre (conj Hnn Hb))).
  unfold bind, ret. rewrite write_cursor. now rewrite <- app_assoc.
Qed.

Lemma bytes_stream_deserialize (b pre rest : bytes) :
  len b <= MAX_SIZE ->
  BytesSerializer.stream_deserialize
    (cursor pre ((varint_tier (len b) ++ b) ++ rest))
  = (Ok b, cursor (pre ++ varint_tier (len b) ++ b) rest).
Proof.
  intros Hb. unfold BytesSerializer.stream_deserialize.
  pose proof (len_nonneg b) as Hnn.
  assert (H64 : 0 <= len b < 2 ^ 64) by (unfold MAX_SIZE in Hb; lia).
  rewrite <- app_assoc.
  rewrite (bind_ok _ _ _ _ _ (stream_deserialize_tier (len b) pre _ H64)).
  rewrite ser_read_cursor by exact Hb. now rewrite <- app_assoc.
Qed.

(** ** The claim on [intVectorSerialzer] *)

Lemma pack_i_ok (v : Z) :
  - 2 ^ 31 <= v < 2 ^ 31 -> struct.pack_i v = Ok (le_bytes 4 v).
Proof.
  intros H. unfold struct.pack_i.
  destruct (- 2 ^ 31 <=? v) eqn:E1, (v <? 2 ^ 31) eqn:E2; zbool; try lia.
  reflexivity.
Qed.

Lemma unpack_i_le_bytes (v : Z) :
  - 2 ^ 31 <= v < 2 ^ 31 -> struct.unpack_i (le_bytes 4 v) = Ok [v].
Proof.
  intros H. unfold struct.unpack_i.
  rewrite le_bytes_length, Nat.eqb_refl. cbv zeta.
  rewrite le_int_le_bytes. change (2 ^ (8 * Z.of_nat 4)) with (2 ^ 32).
  change (2 ^ 31) with 2147483648 in *.
  change (2 ^ 32) with 4294967296 in *.
  destruct (Z.neg_nonneg_cases v) as [Hneg | Hpos].
  - replace (v mod 4294967296) with (v + 4294967296)
      by (apply Z.mod_unique with (q := -1); lia).
    destruct (v + 4294967296 <? 2147483648) eqn:E; zbool; [lia|].
    do 2 f_equal. lia.
  - rewrite Z.mod_small by lia.
    destruct (v <? 2147483648) eqn:E; zbool; [reflexivity | lia].
Qed.

Lemma intvector_write_loop (ints : list Z) :
  Forall (fun v => - 2 ^ 31 <= v < 2 ^ 31) ints ->
  forall pre,
    for_each ints
      (fun i => p <- lift (struct.pack_i i) ;; write p ;;; ret tt)
      (cursor pre [])
    = (Ok tt, cursor (pre ++ concat (map (le_bytes 4) ints)) []).
Proof.
  induction 1 as [|v ints Hv _ IH]; intros pre.
  - cbn [for_each map concat]. unfold ret. now rewrite app_nil_r.
  - cbn [for_each map concat].
    rewrite (bind_ok _ _ _ tt (cursor (pre ++ le_bytes 4 v) [])).
    + rewrite IH. now rewrite <- app_assoc.
    + unfold bind, lift, ret. rewrite pack_i_ok by exact Hv.
      now rewrite write_cursor.
Qed.

Lemma intvector_read_loop (ints : list Z) :
  Forall (fun v => - 2 ^ 31 <= v < 2 ^ 31) ints ->
  forall r0 pre rest,
    iterate (length ints)
      (fun acc => s <- ser_read 4 ;; t <- lift (struct.unpack_i s) ;;
                  ret (append acc t))
      r0
      (cursor pre (concat (map (le_bytes 4) ints) ++ rest))
    = (Ok (r0 ++ map (fun v => [v]) ints),
       cursor (pre ++ concat (map (le_bytes 4) ints)) rest).
Proof.
  induction 1 as [|v ints Hv _ IH]; intros r0 pre rest.
  - cbn [length iterate map concat app]. unfold ret.
    now rewrite !app_nil_r.
  - cbn [length iterate map concat]. rewrite <- app_assoc.
    rewrite (bind_ok _ _ _ (append r0 [v]) (cursor (pre ++ le_bytes 4 v)
               (concat (map (le_bytes 4) ints) ++ rest))).
    + rewrite IH. unfold append. now rewrite <- !app_assoc.
    + unfold bind at 1.
      rewrite (ser_read_exact 4 pre (le_bytes 4 v))
        by ((unfold len; now rewrite le_bytes_length)
            || (unfold MAX_SIZE; lia)).
      unfold bind, lift, ret. now rewrite unpack_i_le_bytes.
Qed.

(** C7. The 32-bit signed integer vector decode discards its result:
    whenever [intVectorSerialzer.stream_deserialize] returns, it returns
    [None], whatever its loop has gathered, and [deserialize] returns
    [None] or raises; on the encoding of a list [ints] of 32-bit integers
    the loop does gather the integers, each in a one-element tuple, in
    order, and the call still returns [None]. *)
Theorem intvector_decode_returns_none :
  (forall f v f',
     intVectorSerialzer.stream_deserialize f = (Ok v, f') ->
     v = None /\
     exists ints, intVectorSerialzer.stream_deserialize_ints f = (Ok ints, f'))
  /\
  (forall buf, intVectorSerialzer.deserialize buf = Ok None \/
               exists e, intVectorSerialzer.deserialize buf = Raise e) /\
  (forall ints pre rest,
     Forall (fun v => - 2 ^ 31 <= v < 2 ^ 31) ints ->
     len ints <= 2 ^ 64 - 1 ->
     exists e,
       intVectorSerialzer.stream_serialize ints (cursor pre [])
       = (Ok tt, cursor (pre ++ e) []) /\
       intVectorSerialzer.stream_deserialize_ints (cursor pre (e ++ rest))
       = (Ok (map (fun v => [v]) ints), cursor (pre ++ e) rest) /\
       intVectorSerialzer.stream_deserialize (cursor pre (e ++ rest))
       = (Ok None, cursor (pre ++ e) rest)).
Proof.
  split; [|split].
  - intros f v f' H. unfold intVectorSerialzer.stream_deserialize in H.
    apply bind_ok_inv in H as (ints & f1 & Hi & H).
    injection H as <- <-. split; [reflexivity | eauto].
  - intros buf.
    unfold intVectorSerialzer.deserialize, Serializer.deserialize.
    cbn [Serializer.stream_deserialize intVectorSerialzer.cls].
    unfold intVectorSerialzer.stream_deserialize, bind.
    destruct (intVectorSerialzer.stream_deserialize_ints (BytesIO_new buf))
      as [[ints|e] f1]; cbn [fst ret]; eauto.
  - intros ints pre rest Hints Hlen.
    pose proof (len_nonneg ints) as Hnn.
    assert (H64 : 0 <= len ints < 2 ^ 64) by lia.
    exists (varint_tier (len ints) ++ concat (map (le_bytes 4) ints)).
    assert (Hloop :
      intVectorSerialzer.stream_deserialize_ints
        (cursor pre ((varint_tier (len ints)
                      ++ concat (map (le_bytes 4) ints)) ++ rest))
      = (Ok (map (fun v => [v]) ints),
         cursor (pre ++ varint_tier (len ints)
                 ++ concat (map (le_bytes 4) ints)) rest)).
    { unfold intVectorSerialzer.stream_deserialize_ints, for_range.
      rewrite <- app_assoc.
      rewrite (bind_ok _ _ _ _ _ (stream_deserialize_tier _ pre _ H64)).
      unfold len at 1. rewrite Nat2Z.id.
      rewrite intvector_read_loop by exact Hints.
      cbn [app]. now rewrite <- app_assoc. }
    split; [|split].
    + unfold intVectorSerialzer.stream_serialize. cbv zeta.
      rewrite (bind_ok _ _ _ _ _ (stream_serialize_tier _ pre H64)).
      rewrite intvector_write_loop by exact Hints.
      now rewrite <- app_assoc.
    + exact Hloop.
    + unfold intVectorSerialzer.stream_deserialize.
      now rewrite (bind_ok _ _ _ _ _ Hloop).
Qed.

Lemma intvector_decode_returns_none_witness :
  exists e,
    intVectorSerialzer.stream_serialize [1; -2] (cursor [] [])
    = (Ok tt, cursor ([] ++ e) []) /\
    intVectorSerialzer.stream_deserialize_ints (cursor [] (e ++ []))
    = (Ok (map (fun v => [v]) [1; -2]), cursor ([] ++ e) []) /\
    intVectorSerialzer.stream_deserialize (cursor [] (e ++ []))
    = (Ok None, cursor ([] ++ e) []).
Proof.
  destruct intvector_decode_returns_none as (_ & _ & H).
  apply (H [1; -2] [] []).
  - repeat constructor; discriminate.
  - discriminate.
Defined.

Example intvector_bytes :
  intVectorSerialzer.serialize [1; -2]
  = Ok [x02; x01; x00; x00; x00; xfe; xff; xff; xff] /\
  intVectorSerialzer.deserialize
    [x02; x01; x00; x00; x00; xfe; xff; xff; xff] = Ok None /\
  intVectorSerialzer.stream_deserialize_ints
    (BytesIO_new [x02; x01; x00; x00; x00; xfe; xff; xff; xff])
  = (Ok [[1]; [-2]],
     {| buf := [x02; x01; x00; x00; x00; xfe; xff; xff; xff]; pos := 9 |}).
Proof. repeat split. Qed.

(** ** The claim on [Serializable] *)

Lemma bytes_eqb_eq (a b : bytes) : Serializable.bytes_eqb a b = true <-> a = b.
Proof.
  unfold Serializable.bytes_eqb.
  destruct (list_eq_dec byte_eq_dec a b); split; congruence.
Qed.

Lemma bytes_eqb_sym (a b : bytes) :
  Serializable.bytes_eqb a b = Serializable.bytes_eqb b a.
Proof.
  unfold Serializable.bytes_eqb.
  destruct (list_eq_dec byte_eq_dec a b), (list_eq_dec byte_eq_dec b a);
    congruence.
Qed.

(** C6, as stated, fails across unrelated classes: two instances of sibling
    classes with the same serialized bytes; [__eq__] returns
    [NotImplemented] both ways and [==] is false. *)
Lemma sibling_classes_not_equal :
  Serializable.serialize sibling_a = Ok [x01] /\
  Serializable.serialize sibling_b = Ok [x01] /\
  Serializable.__eq__ sibling_a sibling_b = Ok Serializable.NotImplemented /\
  Serializable.__eq__ sibling_b sibling_a = Ok Serializable.NotImplemented /\
  Serializable.py_eq sibling_a sibling_b = Ok false.
Proof. repeat split. Qed.

(** C6, as the code has it. Two instances are compared by their serialized
    bytes when one of them is an instance of the class of the other:
    [__eq__] and [==] are then true exactly when the serialized bytes are
    identical, and instances that are equal have equal hashes.  Between
    instances of unrelated classes [__eq__] returns [NotImplemented] and
    [==] is comparison by identity.  [__hash__] is the hash of the
    serialized bytes. *)
Theorem serializable_eq_by_bytes (hash : bytes -> Z)
    (a b : Serializable.object) (sa sb : bytes) :
  Serializable.serialize a = Ok sa ->
  Serializable.serialize b = Ok sb ->
  (Serializable.isinstance b (Serializable.class_of a) = true \/
   Serializable.isinstance a (Serializable.class_of b) = true ->
   Serializable.__eq__ a b = Ok (Serializable.Bool (Serializable.bytes_eqb sa sb))
   /\ (Serializable.py_eq a b = Ok true <-> sa = sb)
   /\ (Serializable.py_eq a b = Ok false <-> sa <> sb)
   /\ (Serializable.py_eq a b = Ok true ->
       Serializable.__hash__ hash a = Serializable.__hash__ hash b)) /\
  (Serializable.isinstance b (Serializable.class_of a) = false ->
   Serializable.isinstance a (Serializable.class_of b) = false ->
   Serializable.__eq__ a b = Ok Serializable.NotImplemented /\
   Serializable.py_eq a b = Ok (Serializable.ob_id a =? Serializable.ob_id b)%nat) /\
  Serializable.__hash__ hash a = Ok (hash sa) /\
  Serializable.__hash__ hash b = Ok (hash sb).
Proof.
  intros Ha Hb.
  assert (Hha : Serializable.__hash__ hash a = Ok (hash sa))
    by (unfold Serializable.__hash__; now rewrite Ha).
  assert (Hhb : Serializable.__hash__ hash b = Ok (hash sb))
    by (unfold Serializable.__hash__; now rewrite Hb).
  split; [|split; [|split; assumption]].
  - intros Hrel.
    assert (Hab : Serializable.__eq__ a b
                  = Ok (Serializable.Bool (Serializable.bytes_eqb sa sb))).
    { unfold Serializable.__eq__. rewrite Ha, Hb.
      destruct Hrel as [-> | ->]; cbn [negb andb];
        now rewrite ?andb_false_r. }
    assert (Hba : Serializable.__eq__ b a
                  = Ok (Serializable.Bool (Serializable.bytes_eqb sa sb))).
    { unfold Serializable.__eq__. rewrite Ha, Hb, (bytes_eqb_sym sb sa).
      destruct Hrel as [-> | ->]; cbn [negb andb];
        now rewrite ?andb_false_r. }
    assert (Hpy : Serializable.py_eq a b
                  = Ok (Serializable.bytes_eqb sa sb)).
    { unfold Serializable.py_eq. cbv zeta. rewrite Hab, Hba.
      now destruct (_ && _). }
    split; [exact Hab|]. rewrite Hpy, Hha, Hhb.
    pose proof (bytes_eqb_eq sa sb) as Heq.
    destruct (Serializable.bytes_eqb sa sb).
    + assert (E : sa = sb) by now apply Heq.
      split; [tauto|]. split; [|intros _; now rewrite E].
      split; [discriminate | intros N; now elim N].
    + assert (N : sa <> sb) by (intros E; apply Heq in E; discriminate).
      split; [|split; [tauto | discriminate]].
      split; [discriminate | intros E; now elim N].
  - intros Hb' Ha'.
    assert (Hab : Serializable.__eq__ a b = Ok Serializable.NotImplemented)
      by (unfold Serializable.__eq__; now rewrite Hb', Ha').
    assert (Hba : Serializable.__eq__ b a = Ok Serializable.NotImplemented)
      by (unfold Serializable.__eq__; now rewrite Hb', Ha').
    split; [exact Hab|].
    unfold Serializable.py_eq. cbv zeta.
    rewrite Hab, Hba, Hb', andb_false_r. reflexivity.
Qed.

Lemma serializable_eq_by_bytes_witness :
  Serializable.__eq__ base_tx derived_tx = Ok (Serializable.Bool true) /\
  Serializable.__eq__ sibling_a sibling_b = Ok Serializable.NotImplemented /\
  Serializable.__hash__ (fun s => len s) base_tx = Ok 2.
Proof.
  split; [|split].
  - destruct (serializable_eq_by_bytes (fun s => len s) base_tx derived_tx
                [x01; x00] [x01; x00] eq_refl eq_refl) as (H & _).
    apply H. left. reflexivity.
  - destruct (serializable_eq_by_bytes (fun s => len s) sibling_a sibling_b
                [x01] [x01] eq_refl eq_refl) as (_ & H & _).
    apply H; reflexivity.
  - apply (serializable_eq_by_bytes (fun s => len s) base_tx derived_tx
             [x01; x00] [x01; x00] eq_refl eq_refl).
Defined.

(** * Further properties of the module *)

(** ** [ser_read] at its edges *)

Lemma remaining_advance (f : BytesIO) (k : nat) :
  remaining {| buf := buf f; pos := pos f + k |} = skipn k (remaining f).
Proof.
  unfold remaining. cbn [buf pos]. rewrite skipn_skipn. f_equal. lia.
Qed.

(** X1. A negative count is not rejected by [ser_read]: within the range
    of [f.read], [-2^63 <= n < 0], it returns everything that is left on
    the stream, with the cursor at the end of what was read; below that
    range [f.read] raises [OverflowError], which [ser_read] passes on, the
    stream untouched. *)
Theorem ser_read_negative_reads_all (f : BytesIO) (n : Z) :
  (- 2 ^ 63 <= n < 0 ->
   ser_read n f =
   (Ok (remaining f),
    {| buf := buf f; pos := pos f + length (remaining f) |})) /\
  (n < - 2 ^ 63 -> ser_read n f = (Raise OverflowError, f)).
Proof.
  split; [|apply ser_read_overflow].
  intros Hn. rewrite ser_read_unfold by lia.
  destruct (n >? MAX_SIZE) eqn:E.
  { destruct (Z.gtb_spec n MAX_SIZE); [unfold MAX_SIZE in *; lia|discriminate]. }
  destruct (n <? 0) eqn:E0; zbool; [|lia]. cbv zeta.
  pose proof (len_nonneg (remaining f)) as Hnn.
  destruct (len (remaining f) <? n) eqn:E1; zbool; [lia | reflexivity].
Qed.

Lemma ser_read_negative_reads_all_witness :
  ser_read (-1) {| buf := [x01; x02; x03]; pos := 1 |} =
  (Ok [x02; x03], {| buf := [x01; x02; x03]; pos := 3 |}) /\
  ser_read (- 2 ^ 63 - 1) {| buf := [x01; x02; x03]; pos := 1 |} =
  (Raise OverflowError, {| buf := [x01; x02; x03]; pos := 1 |}).
Proof.
  split.
  - apply (ser_read_negative_reads_all {| buf := [x01; x02; x03]; pos := 1 |}
             (-1)).
    split; [discriminate | reflexivity].
  - apply (ser_read_negative_reads_all {| buf := [x01; x02; x03]; pos := 1 |}
             (- 2 ^ 63 - 1)).
    reflexivity.
Defined.

(** X2. With [0 <= n <= MAX_SIZE] and at least [n] bytes left, [ser_read]
    returns exactly the next [n] bytes and moves the cursor by [n], no
    further; a read of zero bytes returns the empty bytes on any stream. *)
Theorem ser_read_returns_exact (f : BytesIO) (n : Z) :
  0 <= n <= MAX_SIZE ->
  n <= len (remaining f) ->
  ser_read n f =
  (Ok (firstn (Z.to_nat n) (remaining f)),
   {| buf := buf f; pos := pos f + Z.to_nat n |}) /\
  len (firstn (Z.to_nat n) (remaining f)) = n /\
  remaining f
  = firstn (Z.to_nat n) (remaining f)
    ++ remaining {| buf := buf f; pos := pos f + Z.to_nat n |}.
Proof.
  intros Hn Hav.
  assert (Hl : length (firstn (Z.to_nat n) (remaining f)) = Z.to_nat n).
  { rewrite length_firstn. unfold len in Hav. lia. }
  split; [|split].
  - rewrite ser_read_unfold by lia.
    destruct (n >? MAX_SIZE) eqn:E.
    { destruct (Z.gtb_spec n MAX_SIZE); [lia | discriminate]. }
    destruct (n <? 0) eqn:E0; zbool; [lia|]. cbv zeta.
    unfold len at 1. rewrite Hl.
    destruct (Z.of_nat (Z.to_nat n) <? n) eqn:E1; zbool; [lia | reflexivity].
  - unfold len. rewrite Hl. lia.
  - rewrite remaining_advance. now rewrite firstn_skipn.
Qed.

Lemma ser_read_returns_exact_witness :
  ser_read 2 {| buf := [x01; x02; x03; x04]; pos := 1 |} =
  (Ok [x02; x03], {| buf := [x01; x02; x03; x04]; pos := 3 |}).
Proof.
  apply (ser_read_returns_exact {| buf := [x01; x02; x03; x04]; pos := 1 |} 2).
  - split; discriminate.
  - discriminate.
Defined.

(** X3. Whatever it is asked and however it ends, [ser_read] leaves the
    contents of the buffer alone and never moves the cursor backwards nor
    beyond the end of the buffer; when it returns, what was left before is
    what it returns followed by what is left after. *)
Theorem ser_read_keeps_buffer (f f' : BytesIO) (n : Z) (r : result bytes) :
  ser_read n f = (r, f') ->
  buf f' = buf f /\
  (pos f <= pos f' <= Nat.max (pos f) (length (buf f)))%nat /\
  (forall s, r = Ok s -> remaining f = s ++ remaining f').
Proof.
  destruct (Z.lt_ge_cases n (- 2 ^ 63)) as [Hlow | Hin].
  { rewrite ser_read_overflow by exact Hlow.
    intros H. injection H as <- <-. repeat split; try lia. discriminate. }
  rewrite ser_read_unfold by exact Hin.
  assert (Hrem : (pos f + length (remaining f)
                  <= Nat.max (pos f) (length (buf f)))%nat).
  { unfold remaining. rewrite length_skipn. lia. }
  destruct (n >? MAX_SIZE).
  { intros H. injection H as <- <-. repeat split; try lia. discriminate. }
  cbv zeta.
  set (s := if n <? 0 then remaining f
            else firstn (Z.to_nat n) (remaining f)).
  assert (Hs : (length s <= length (remaining f))%nat).
  { subst s. destruct (n <? 0); [lia | rewrite length_firstn; lia]. }
  assert (Hsplit : remaining f
                   = s ++ remaining {| buf := buf f; pos := pos f + length s |}).
  { rewrite remaining_advance. subst s. destruct (n <? 0).
    - now rewrite skipn_all, app_nil_r.
    - destruct (Nat.le_gt_cases (Z.to_nat n) (length (remaining f))) as [L|G].
      + rewrite length_firstn, Nat.min_l by exact L.
        now rewrite firstn_skipn.
      + rewrite firstn_all2 by lia. now rewrite skipn_all, app_nil_r. }
  destruct (len s <? n); intros H; injection H as <- <-; cbn [buf pos];
    (split; [reflexivity|]); (split; [lia|]); intros s' E;
    [discriminate | injection E as <-; exact Hsplit].
Qed.

Lemma ser_read_keeps_buffer_witness :
  buf {| buf := [x01; x02; x03]; pos := 3 |} = [x01; x02; x03] /\
  (0 <= 3 <= Nat.max 0 3)%nat.
Proof.
  destruct (ser_read_keeps_buffer (BytesIO_new [x01; x02; x03])
              {| buf := [x01; x02; x03]; pos := 3 |} 5
              (Raise (SerializationTruncationError
                        "Asked to read 5 bytes, but only got 3"))
              eq_refl) as (H1 & H2 & _).
  split; [exact H1 | exact H2].
Defined.

(** ** The VarInt decoder on short and on non-minimal input *)

Lemma ser_read_short (f : BytesIO) (n : Z) :
  n <= MAX_SIZE -> len (remaining f) < n ->
  ser_read n f =
  (Raise (SerializationTruncationError (truncation_msg n (len (remaining f)))),
   {| buf := buf f; pos := pos f + length (remaining f) |}).
Proof.
  intros Hmax Hshort. pose proof (len_nonneg (remaining f)) as Hnn.
  rewrite ser_read_unfold by lia.
  destruct (n >? MAX_SIZE) eqn:E.
  { destruct (Z.gtb_spec n MAX_SIZE); [lia | discriminate]. }
  destruct (n <? 0) eqn:E0; zbool; [lia|].
  rewrite firstn_all2 by (unfold len in Hshort; lia).
  cbv zeta. destruct (len (remaining f) <? n) eqn:E1; zbool; [reflexivity|lia].
Qed.

Lemma ser_read_short_cursor (pre p : bytes) (n : Z) :
  n <= MAX_SIZE -> len p < n ->
  ser_read n (cursor pre p) =
  (Raise (SerializationTruncationError (truncation_msg n (len p))),
   cursor (pre ++ p) []).
Proof.
  intros Hmax Hshort.
  rewrite ser_read_short;
    [rewrite remaining_cursor | assumption
     | rewrite remaining_cursor; assumption].
  unfold cursor. cbn [buf pos]. now rewrite app_nil_r, length_app.
Qed.

(** X4. The VarInt decoder on truncated input: on a stream with nothing
    left it raises the truncation error for the one marker byte, the cursor
    unmoved; after a marker [0xfd], [0xfe] or [0xff] followed by fewer than
    the 2, 4 or 8 bytes it announces, it raises the truncation error for
    that count and for the number of bytes that were there, having read the
    stream to its end. *)
Theorem varint_decode_truncated :
  (forall f,
     remaining f = [] ->
     exists f',
       VarIntSerializer.stream_deserialize f
       = (Raise (SerializationTruncationError
                   "Asked to read 1 bytes, but only got 0"), f') /\
       buf f' = buf f /\ pos f' = pos f) /\
  (forall pre m p w,
     (m = xfd /\ w = 2) \/ (m = xfe /\ w = 4) \/ (m = xff /\ w = 8) ->
     len p < w ->
     VarIntSerializer.stream_deserialize (cursor pre (m :: p))
     = (Raise (SerializationTruncationError (truncation_msg w (len p))),
        cursor (pre ++ m :: p) [])).
Proof.
  split.
  - intros f Hf. eexists. split.
    + unfold VarIntSerializer.stream_deserialize.
      apply bind_raise.
      rewrite ser_read_short;
        [rewrite Hf; reflexivity | discriminate | rewrite Hf; reflexivity].
    + cbn [buf pos length]. split; [reflexivity | lia].
  - intros pre m p w Hm Hp.
    unfold VarIntSerializer.stream_deserialize.
    change (m :: p) with ([m] ++ p).
    rewrite (bind_ok _ _ _ _ _ (ser_read_exact 1 pre [m] p eq_refl
                                  ltac:(discriminate))).
    unfold bind at 1, lift, bord.
    replace (cursor (pre ++ [m] ++ p) []) with (cursor ((pre ++ [m]) ++ p) [])
      by (now rewrite <- app_assoc).
    destruct Hm as [[-> ->] | [[-> ->] | [-> ->]]].
    + change (Z_of_byte xfd) with 253. cbn [Z.ltb Z.eqb Z.compare Pos.compare
        Pos.compare_cont Pos.eqb].
      apply bind_raise. apply ser_read_short_cursor; [discriminate | exact Hp].
    + change (Z_of_byte xfe) with 254. cbn [Z.ltb Z.eqb Z.compare Pos.compare
        Pos.compare_cont Pos.eqb].
      apply bind_raise. apply ser_read_short_cursor; [discriminate | exact Hp].
    + change (Z_of_byte xff) with 255. cbn [Z.ltb Z.eqb Z.compare Pos.compare
        Pos.compare_cont Pos.eqb].
      apply bind_raise. apply ser_read_short_cursor; [discriminate | exact Hp].
Qed.

Lemma varint_decode_truncated_witness :
  VarIntSerializer.stream_deserialize (cursor [x07] (xfe :: [x01; x02; x03]))
  = (Raise (SerializationTruncationError
              "Asked to read 4 bytes, but only got 3"),
     cursor ([x07] ++ xfe :: [x01; x02; x03]) []).
Proof.
  destruct varint_decode_truncated as (_ & H).
  apply (H [x07] xfe [x01; x02; x03] 4).
  - right; left; split; reflexivity.
  - reflexivity.
Defined.

(** What a returning VarInt decode has read: one byte below [0xfd], or a
    marker and the bytes it announces. *)
Lemma varint_decode_inv (pre rest : bytes) (v : Z) (f' : BytesIO) :
  VarIntSerializer.stream_deserialize (cursor pre rest) = (Ok v, f') ->
  (exists b rest',
     rest = b :: rest' /\ Z_of_byte b < 0xfd /\ v = Z_of_byte b /\
     f' = cursor (pre ++ [b]) rest') \/
  (exists m p rest',
     rest = m :: p ++ rest' /\
     ((m = xfd /\ length p = 2%nat) \/ (m = xfe /\ length p = 4%nat) \/
      (m = xff /\ length p = 8%nat)) /\
     v = le_int p /\ f' = cursor (pre ++ m :: p) rest').
Proof.
  unfold VarIntSerializer.stream_deserialize. intros H.
  apply bind_ok_inv in H as (s & f1 & Hs & H).
  apply ser_read_ok_inv in Hs as (rest1 & -> & Hl & _ & ->); [|lia].
  destruct s as [|b [|c s]];
    [discriminate Hl | | exfalso; unfold len in Hl; cbn [length] in Hl; lia].
  clear Hl.
  apply bind_ok_inv in H as (r & f2 & Hr & H).
  unfold lift, bord in Hr. injection Hr as <- <-.
  pose proof (Z_of_byte_range b) as Hb.
  destruct (Z_of_byte b <? 0xfd) eqn:E1; zbool.
  { injection H as <- <-. left. exists b, rest1. repeat split. exact E1. }
  right.
  assert (Htail : forall w m,
    0 <= Z.of_nat w -> Z.of_nat w <= 8 -> Z_of_byte b = Z_of_byte m ->
    (s <- ser_read (Z.of_nat w) ;;
     t <- lift (struct.unpack_unsigned w s) ;; lift (item0 t))
      (cursor (pre ++ [b]) rest1) = (Ok v, f') ->
    exists p rest',
      [b] ++ rest1 = m :: p ++ rest' /\ length p = w /\
      v = le_int p /\ f' = cursor (pre ++ m :: p) rest').
  { intros w m Hw0 Hw8 Hm H'.
    apply Z_of_byte_inj in Hm. subst m.
    apply bind_ok_inv in H' as (p & f3 & Hp & H').
    apply ser_read_ok_inv in Hp as (rest2 & -> & Hlp & _ & ->); [|lia].
    apply bind_ok_inv in H' as (t & f4 & Ht & H').
    unfold lift in Ht, H'. injection Ht as Ht <-. injection H' as H' <-.
    unfold struct.unpack_unsigned in Ht.
    destruct (length p =? w)%nat eqn:El; [|discriminate].
    apply Nat.eqb_eq in El. injection Ht as <-. injection H' as <-.
    exists p, rest2. repeat split; try assumption.
    now rewrite <- app_assoc. }
  destruct (Z_of_byte b =? 0xfd) eqn:E2;
    [|destruct (Z_of_byte b =? 0xfe) eqn:E3]; zbool.
  - destruct (Htail 2%nat xfd) as (p & rest' & Hrest & Hlen & Hv & Hf');
      [lia | lia | exact E2 | exact H |].
    exists xfd, p, rest'.
    split; [exact Hrest | split; [left; split; [reflexivity | exact Hlen] | split; assumption]].
  - destruct (Htail 4%nat xfe) as (p & rest' & Hrest & Hlen & Hv & Hf');
      [lia | lia | exact E3 | exact H |].
    exists xfe, p, rest'.
    split; [exact Hrest | split; [right; left; split; [reflexivity | exact Hlen] | split; assumption]].
  - destruct (Htail 8%nat xff) as (p & rest' & Hrest & Hlen & Hv & Hf');
      [lia | lia | change (Z_of_byte xff) with 255; lia | exact H |].
    exists xff, p, rest'.
    split; [exact Hrest | split; [right; right; split; [reflexivity | exact Hlen] | split; assumption]].
Qed.

Lemma varint_tier_length (v : Z) :
  length (varint_tier v)
  = if v <? 0xfd then 1%nat
    else if v <=? 0xffff then 3%nat
    else if v <=? 0xffffffff then 5%nat else 9%nat.
Proof.
  unfold varint_tier.
  destruct (v <? 0xfd), (v <=? 0xffff), (v <=? 0xffffffff); reflexivity.
Qed.

(** X5. The encoder's output is the shortest encoding the decoder accepts:
    whenever [stream_deserialize] returns [v] after reading the bytes
    [used], [serialize v] returns an encoding that is no longer than
    [used], and that is [used] itself when it is as long. *)
Theorem varint_reencode_shortest (pre rest : bytes) (v : Z) (f' : BytesIO) :
  VarIntSerializer.stream_deserialize (cursor pre rest) = (Ok v, f') ->
  exists used rest' e,
    rest = used ++ rest' /\ f' = cursor (pre ++ used) rest' /\
    VarIntSerializer.serialize v = Ok e /\
    (length e <= length used)%nat /\
    (length e = length used -> e = used).
Proof.
  intros H. pose proof (stream_deserialize_range _ _ _ H) as Hv.
  apply varint_decode_inv in H
    as [(b & rest' & -> & Hb & -> & ->) | (m & p & rest' & -> & Hm & -> & ->)].
  - exists [b], rest', (varint_tier (Z_of_byte b)).
    rewrite serialize_tier by exact Hv.
    assert (E : varint_tier (Z_of_byte b) = [b]).
    { unfold varint_tier.
      destruct (Z_of_byte b <? 0xfd) eqn:E; zbool; [|lia].
      now rewrite byte_of_Z_of_byte. }
    rewrite E. repeat split. cbn [length]. lia.
  - exists (m :: p), rest', (varint_tier (le_int p)).
    rewrite serialize_tier by exact Hv.
    pose proof (le_int_range p) as Hr.
    pose proof (le_bytes_le_int p) as Hp.
    split; [reflexivity|]. split; [reflexivity|]. split; [reflexivity|].
    rewrite varint_tier_length. unfold varint_tier. cbn [length].
    destruct Hm as [[-> Hl] | [[-> Hl] | [-> Hl]]]; rewrite Hl in *;
      cbn [Z.of_nat Pos.of_succ_nat Pos.succ Z.mul Pos.mul Pos.add] in Hr;
      destruct (le_int p <? 0xfd) eqn:E1;
      destruct (le_int p <=? 0xffff) eqn:E2;
      destruct (le_int p <=? 0xffffffff) eqn:E3; zbool;
      try (change (2 ^ 16) with 65536 in Hr);
      try (change (2 ^ 32) with 4294967296 in Hr);
      try lia;
      (split; [lia|]); intros E; try discriminate E;
      now rewrite Hp.
Qed.

Lemma varint_reencode_shortest_witness :
  exists used rest' e,
    [xfe; x05; x00; x00; x00; x09] = used ++ rest' /\
    {| buf := [x01; xfe; x05; x00; x00; x00; x09]; pos := 6 |}
    = cursor ([x01] ++ used) rest' /\
    VarIntSerializer.serialize 5 = Ok e /\
    (length e <= length used)%nat /\
    (length e = length used -> e = used).
Proof.
  apply (varint_reencode_shortest [x01] [xfe; x05; x00; x00; x00; x09] 5).
  reflexivity.
Defined.

(** ** Length-prefixed bytes and strings *)

(** X6. What [BytesSerializer.stream_deserialize] returns is as long as the
    VarInt prefix says, at most [MAX_SIZE] bytes, and is the bytes that
    follow the prefix on the stream; the cursor ends right after them. *)
Theorem bytes_decode_length (pre rest b : bytes) (f' : BytesIO) :
  BytesSerializer.stream_deserialize (cursor pre rest) = (Ok b, f') ->
  exists l hdr rest',
    rest = hdr ++ b ++ rest' /\
    VarIntSerializer.stream_deserialize (cursor pre rest)
    = (Ok l, cursor (pre ++ hdr) (b ++ rest')) /\
    len b = l /\ l <= MAX_SIZE /\
    f' = cursor (pre ++ hdr ++ b) rest'.
Proof.
  unfold BytesSerializer.stream_deserialize. intros H.
  apply bind_ok_inv in H as (l & f1 & Hl & Hr).
  pose proof (stream_deserialize_range _ _ _ Hl) as Hrange.
  pose proof Hl as Hl'.
  apply prefix_varint in Hl' as (hdr & rest1 & -> & -> & _).
  apply ser_read_ok_inv in Hr as (rest' & -> & Hlen & Hmax & ->); [|lia].
  exists l, hdr, rest'. repeat split; try assumption.
  now rewrite <- app_assoc.
Qed.

Lemma bytes_decode_length_witness :
  exists l hdr rest',
    [x02; x68; x69; x21] = hdr ++ [x68; x69] ++ rest' /\
    VarIntSerializer.stream_deserialize (cursor [] [x02; x68; x69; x21])
    = (Ok l, cursor ([] ++ hdr) ([x68; x69] ++ rest')) /\
    len [x68; x69] = l /\ l <= MAX_SIZE /\
    {| buf := [x02; x68; x69; x21]; pos := 3 |}
    = cursor ([] ++ hdr ++ [x68; x69]) rest'.
Proof.
  apply (bytes_decode_length [] [x02; x68; x69; x21] [x68; x69]).
  reflexivity.
Defined.

(** X7. How the length-prefixed decoders fail, for [BytesSerializer] and
    [VarStringSerializer] alike: a prefix above [MAX_SIZE] raises
    [SerializationError] with the cursor right after the prefix, nothing of
    the payload read; a prefix within [MAX_SIZE] with fewer bytes left than
    it announces raises the truncation error for the prefix and for the
    number of bytes left; an exception of the prefix decode is passed
    on. *)
Theorem length_prefixed_decode_failures (f : BytesIO) :
  (forall l f1,
     VarIntSerializer.stream_deserialize f = (Ok l, f1) ->
     l > MAX_SIZE ->
     BytesSerializer.stream_deserialize f
     = (Raise (SerializationError
                 "Asked to read 0x%x bytes; MAX_SIZE exceeded"), f1) /\
     VarStringSerializer.stream_deserialize f
     = (Raise (SerializationError
                 "Asked to read 0x%x bytes; MAX_SIZE exceeded"), f1)) /\
  (forall l f1,
     VarIntSerializer.stream_deserialize f = (Ok l, f1) ->
     l <= MAX_SIZE ->
     len (remaining f1) < l ->
     BytesSerializer.stream_deserialize f
     = (Raise (SerializationTruncationError
                 (truncation_msg l (len (remaining f1)))),
        {| buf := buf f1; pos := pos f1 + length (remaining f1) |}) /\
     VarStringSerializer.stream_deserialize f
     = (Raise (SerializationTruncationError
                 (truncation_msg l (len (remaining f1)))),
        {| buf := buf f1; pos := pos f1 + length (remaining f1) |})) /\
  (forall e f1,
     VarIntSerializer.stream_deserialize f = (Raise e, f1) ->
     BytesSerializer.stream_deserialize f = (Raise e, f1) /\
     VarStringSerializer.stream_deserialize f = (Raise e, f1)).
Proof.
  unfold BytesSerializer.stream_deserialize,
    VarStringSerializer.stream_deserialize.
  split; [|split].
  - intros l f1 Hl Hbig. rewrite (bind_ok _ _ _ _ _ Hl).
    rewrite ser_read_unfold by (unfold MAX_SIZE in Hbig; lia).
    destruct (l >? MAX_SIZE) eqn:E; [split; reflexivity|].
    destruct (Z.gtb_spec l MAX_SIZE); [discriminate | lia].
  - intros l f1 Hl Hmax Hshort. rewrite (bind_ok _ _ _ _ _ Hl).
    rewrite ser_read_short by assumption. split; reflexivity.
  - intros e f1 He. rewrite (bind_raise _ _ _ _ _ He). split; reflexivity.
Qed.

Lemma length_prefixed_decode_failures_witness :
  BytesSerializer.stream_deserialize
    (BytesIO_new [xfe; x01; x00; x00; x02; xaa])
  = (Raise (SerializationError "Asked to read 0x%x bytes; MAX_SIZE exceeded"),
     {| buf := [xfe; x01; x00; x00; x02; xaa]; pos := 5 |}) /\
  VarStringSerializer.stream_deserialize (BytesIO_new [x03; xaa])
  = (Raise (SerializationTruncationError
              "Asked to read 3 bytes, but only got 1"),
     {| buf := [x03; xaa]; pos := 2 |}).
Proof.
  split.
  - destruct (length_prefixed_decode_failures
                (BytesIO_new [xfe; x01; x00; x00; x02; xaa])) as (H & _).
    apply (H 0x02000001
             {| buf := [xfe; x01; x00; x00; x02; xaa]; pos := 5 |});
      reflexivity.
  - destruct (length_prefixed_decode_failures
                (BytesIO_new [x03; xaa])) as (_ & H & _).
    apply (H 3 {| buf := [x03; xaa]; pos := 1 |});
      [reflexivity | discriminate | reflexivity].
Defined.

(** X8. [VarStringSerializer] round trip on streams: for a string [s] of at
    most [MAX_SIZE] bytes, [stream_serialize] appends a VarInt header and
    then [s] itself, unchanged; [stream_deserialize], started at the
    header, returns [s] and stops right after it, whatever follows; the
    header decodes to the length of [s]. *)
Theorem varstring_round_trip (s pre rest : bytes) :
  len s <= MAX_SIZE ->
  exists hdr,
    VarStringSerializer.stream_serialize s (cursor pre [])
    = (Ok tt, cursor (pre ++ hdr ++ s) []) /\
    VarIntSerializer.deserialize hdr = Ok (len s) /\
    VarStringSerializer.stream_deserialize (cursor pre ((hdr ++ s) ++ rest))
    = (Ok s, cursor (pre ++ hdr ++ s) rest) /\
    VarStringSerializer.serialize s = Ok (hdr ++ s) /\
    VarStringSerializer.deserialize (hdr ++ s) = Ok s.
Proof.
  intros Hmax. pose proof (len_nonneg s) as Hnn.
  assert (H64 : 0 <= len s < 2 ^ 64) by (unfold MAX_SIZE in Hmax; lia).
  exists (varint_tier (len s)).
  assert (Hser : forall pre0,
    VarStringSerializer.stream_serialize s (cursor pre0 [])
    = (Ok tt, cursor (pre0 ++ varint_tier (len s) ++ s) [])).
  { intros pre0. unfold VarStringSerializer.stream_serialize. cbv zeta.
    rewrite (bind_ok _ _ _ _ _ (stream_serialize_tier (len s) pre0 H64)).
    unfold bind, ret. rewrite write_cursor. now rewrite <- app_assoc. }
  assert (Hde : forall pre0 rest0,
    VarStringSerializer.stream_deserialize
      (cursor pre0 ((varint_tier (len s) ++ s) ++ rest0))
    = (Ok s, cursor (pre0 ++ varint_tier (len s) ++ s) rest0)).
  { intros pre0 rest0. unfold VarStringSerializer.stream_deserialize.
    rewrite <- app_assoc.
    rewrite (bind_ok _ _ _ _ _ (stream_deserialize_tier (len s) pre0 _ H64)).
    rewrite ser_read_cursor by exact Hmax. now rewrite <- app_assoc. }
  split; [apply Hser|]. split; [|split; [apply Hde|split]].
  - rewrite <- (app_nil_r (varint_tier (len s))). now apply deserialize_tier.
  - unfold VarStringSerializer.serialize, Serializer.serialize.
    cbn [Serializer.stream_serialize VarStringSerializer.cls].
    rewrite BytesIO_new_cursor, Hser.
    unfold getvalue, cursor. cbn [buf app]. now rewrite app_nil_r.
  - unfold VarStringSerializer.deserialize, Serializer.deserialize.
    cbn [Serializer.stream_deserialize VarStringSerializer.cls].
    rewrite BytesIO_new_cursor, <- (app_nil_r (varint_tier (len s) ++ s)).
    now rewrite Hde.
Qed.

Lemma varstring_round_trip_witness :
  exists hdr,
    VarStringSerializer.stream_serialize [x68; x69] (cursor [x07] [])
    = (Ok tt, cursor ([x07] ++ hdr ++ [x68; x69]) []) /\
    VarIntSerializer.deserialize hdr = Ok (len [x68; x69]) /\
    VarStringSerializer.stream_deserialize
      (cursor [x07] ((hdr ++ [x68; x69]) ++ [x21]))
    = (Ok [x68; x69], cursor ([x07] ++ hdr ++ [x68; x69]) [x21]) /\
    VarStringSerializer.serialize [x68; x69] = Ok (hdr ++ [x68; x69]) /\
    VarStringSerializer.deserialize (hdr ++ [x68; x69]) = Ok [x68; x69].
Proof.
  apply (varstring_round_trip [x68; x69] [x07] [x21]). discriminate.
Defined.

(** ** Vectors *)

Section ElementLoops.

Context {A : Type} (enc : A -> bytes).

Lemma for_each_writes (body : A -> io unit) (objs : list A) :
  (forall x, In x objs -> forall pre,
     body x (cursor pre []) = (Ok tt, cursor (pre ++ enc x) [])) ->
  forall pre,
    for_each objs body (cursor pre [])
    = (Ok tt, cursor (pre ++ concat (map enc objs)) []).
Proof.
  induction objs as [|x objs IH]; intros Hb pre.
  - cbn [for_each map concat]. unfold ret. now rewrite app_nil_r.
  - cbn [for_each map concat].
    rewrite (bind_ok _ _ _ _ _ (Hb x (or_introl eq_refl) pre)).
    rewrite IH by (intros y Hy; apply Hb; now right).
    now rewrite <- app_assoc.
Qed.

Lemma for_each_raises (body : A -> io unit) (good : list A) (bad : A)
    (tl : list A) (e : exn) (fb : BytesIO) (pre : bytes) :
  (forall x, In x good -> forall pre0,
     body x (cursor pre0 []) = (Ok tt, cursor (pre0 ++ enc x) [])) ->
  body bad (cursor (pre ++ concat (map enc good)) []) = (Raise e, fb) ->
  for_each (good ++ bad :: tl) body (cursor pre []) = (Raise e, fb).
Proof.
  revert pre. induction good as [|x good IH]; intros pre Hg Hbad.
  - cbn [app for_each]. apply bind_raise.
    cbn [map concat] in Hbad. now rewrite app_nil_r in Hbad.
  - cbn [app for_each].
    rewrite (bind_ok _ _ _ _ _ (Hg x (or_introl eq_refl) pre)).
    apply IH; [intros y Hy; apply Hg; now right|].
    cbn [map concat] in Hbad. now rewrite <- app_assoc.
Qed.

Lemma iterate_reads (inner : io A) (objs : list A) :
  (forall x, In x objs -> forall pre rest,
     inner (cursor pre (enc x ++ rest)) = (Ok x, cursor (pre ++ enc x) rest)) ->
  forall r0 pre rest,
    iterate (length objs) (fun r => x <- inner ;; ret (append r x)) r0
      (cursor pre (concat (map enc objs) ++ rest))
    = (Ok (r0 ++ objs), cursor (pre ++ concat (map enc objs)) rest).
Proof.
  induction objs as [|x objs IH]; intros Hi r0 pre rest.
  - cbn [length iterate map concat app]. unfold ret. now rewrite !app_nil_r.
  - cbn [length iterate map concat]. rewrite <- app_assoc.
    rewrite (bind_ok _ _ _ (append r0 x)
               (cursor (pre ++ enc x) (concat (map enc objs) ++ rest)))
      by (now rewrite (bind_ok _ _ _ _ _ (Hi x (or_introl eq_refl) pre _))).
    rewrite IH by (intros y Hy; apply Hi; now right).
    unfold append. now rewrite <- !app_assoc.
Qed.

End ElementLoops.

(** X9. Vector round trip: when the element class writes each element [x]
    of [objs] as some bytes [enc x] and reads [x] back from them, whatever
    follows, [VectorSerializer.stream_serialize] appends the VarInt count
    and then the encodings of the elements in order, and
    [VectorSerializer.stream_deserialize], started at the count, returns
    [objs] in the same order and stops right after the last element. *)
Theorem vector_round_trip {A : Type} (inner_cls : Serializer.class A A)
    (enc : A -> bytes) (objs : list A) (pre rest : bytes) :
  len objs <= 2 ^ 64 - 1 ->
  (forall x, In x objs -> forall pre0,
     Serializer.stream_serialize inner_cls x (cursor pre0 [])
     = (Ok tt, cursor (pre0 ++ enc x) [])) ->
  (forall x, In x objs -> forall pre0 rest0,
     Serializer.stream_deserialize inner_cls (cursor pre0 (enc x ++ rest0))
     = (Ok x, cursor (pre0 ++ enc x) rest0)) ->
  exists hdr,
    VarIntSerializer.deserialize hdr = Ok (len objs) /\
    VectorSerializer.stream_serialize inner_cls objs (cursor pre [])
    = (Ok tt, cursor (pre ++ hdr ++ concat (map enc objs)) []) /\
    VectorSerializer.stream_deserialize inner_cls
      (cursor pre ((hdr ++ concat (map enc objs)) ++ rest))
    = (Ok objs, cursor (pre ++ hdr ++ concat (map enc objs)) rest).
Proof.
  intros Hlen Hser Hde. pose proof (len_nonneg objs) as Hnn.
  assert (H64 : 0 <= len objs < 2 ^ 64) by lia.
  exists (varint_tier (len objs)). split; [|split].
  - rewrite <- (app_nil_r (varint_tier _)). now apply deserialize_tier.
  - unfold VectorSerializer.stream_serialize.
    rewrite (bind_ok _ _ _ _ _ (stream_serialize_tier _ pre H64)).
    rewrite (for_each_writes enc) by exact Hser.
    now rewrite <- app_assoc.
  - unfold VectorSerializer.stream_deserialize, for_range.
    rewrite <- app_assoc.
    rewrite (bind_ok _ _ _ _ _ (stream_deserialize_tier _ pre _ H64)).
    unfold len at 1. rewrite Nat2Z.id.
    rewrite (iterate_reads enc) by exact Hde.
    cbn [app]. now rewrite <- app_assoc.
Qed.

(** A vector of VarInts of three different widths. *)
Lemma vector_round_trip_witness :
  exists hdr,
    VarIntSerializer.deserialize hdr = Ok (len [1; 0xfd; 0x10000]) /\
    VectorSerializer.stream_serialize VarIntSerializer.cls
      [1; 0xfd; 0x10000] (cursor [] [])
    = (Ok tt,
       cursor ([] ++ hdr ++ concat (map varint_tier [1; 0xfd; 0x10000])) []) /\
    VectorSerializer.stream_deserialize VarIntSerializer.cls
      (cursor []
         ((hdr ++ concat (map varint_tier [1; 0xfd; 0x10000])) ++ [xaa]))
    = (Ok [1; 0xfd; 0x10000],
       cursor ([] ++ hdr ++ concat (map varint_tier [1; 0xfd; 0x10000]))
         [xaa]).
Proof.
  apply (vector_round_trip VarIntSerializer.cls varint_tier
           [1; 0xfd; 0x10000] [] [xaa]).
  - discriminate.
  - intros x [<- | [<- | [<- | []]]] pre0;
      apply stream_serialize_tier; split; (discriminate || reflexivity).
  - intros x [<- | [<- | [<- | []]]] pre0 rest0;
      apply stream_deserialize_tier; split; (discriminate || reflexivity).
Defined.

(** X10. A failing element aborts the vector encode half-way: when the
    elements [good] are written and the next element raises,
    [VectorSerializer.stream_serialize] raises that exception, and the
    stream already holds the count of the whole list and the encodings of
    [good]. *)
Theorem vector_encode_failure {A B : Type} (inner_cls : Serializer.class A B)
    (enc : A -> bytes) (good : list A) (bad : A) (tl : list A)
    (pre : bytes) (e : exn) (fb : BytesIO) :
  len (good ++ bad :: tl) <= 2 ^ 64 - 1 ->
  (forall x, In x good -> forall pre0,
     Serializer.stream_serialize inner_cls x (cursor pre0 [])
     = (Ok tt, cursor (pre0 ++ enc x) [])) ->
  Serializer.stream_serialize inner_cls bad
    (cursor (pre ++ varint_tier (len (good ++ bad :: tl))
             ++ concat (map enc good)) [])
  = (Raise e, fb) ->
  VectorSerializer.stream_serialize inner_cls (good ++ bad :: tl)
    (cursor pre [])
  = (Raise e, fb).
Proof.
  intros Hlen Hgood Hbad.
  pose proof (len_nonneg (good ++ bad :: tl)) as Hnn.
  assert (H64 : 0 <= len (good ++ bad :: tl) < 2 ^ 64) by lia.
  unfold VectorSerializer.stream_serialize.
  rewrite (bind_ok _ _ _ _ _ (stream_serialize_tier _ pre H64)).
  apply (for_each_raises enc); [exact Hgood|].
  now rewrite <- app_assoc.
Qed.

Lemma vector_encode_failure_witness :
  VectorSerializer.stream_serialize VarIntSerializer.cls
    ([1; 2] ++ (-1) :: [3]) (cursor [] [])
  = (Raise (ValueError "varint must be non-negative integer"),
     {| buf := [x04; x01; x02]; pos := 3 |}).
Proof.
  apply (vector_encode_failure VarIntSerializer.cls varint_tier
           [1; 2] (-1) [3] []).
  - discriminate.
  - intros x [<- | [<- | []]] pre0;
      apply stream_serialize_tier; split; (discriminate || reflexivity).
  - reflexivity.
Defined.

(** ** Vectors of 32-byte values *)

Lemma ser_read_ok_general (n : Z) (f f' : BytesIO) (r : bytes) :
  0 <= n -> ser_read n f = (Ok r, f') ->
  len r = n /\ buf f' = buf f /\ pos f' = (pos f + length r)%nat /\
  remaining f = r ++ remaining f'.
Proof.
  intros Hn H. pose proof (ser_read_ok_len _ _ _ _ Hn H) as Hl.
  rewrite ser_read_unfold in H by lia.
  destruct (n >? MAX_SIZE); [discriminate|].
  destruct (n <? 0) eqn:E0; zbool; [lia|].
  cbv zeta in H. destruct (len _ <? n); [discriminate|].
  injection H as <- <-. cbn [buf pos]. repeat split; try assumption.
  rewrite remaining_advance.
  unfold len in Hl. rewrite length_firstn in *.
  replace (Nat.min (Z.to_nat n) (length (remaining f))) with (Z.to_nat n)
    by lia.
  now rewrite firstn_skipn.
Qed.

Lemma uint256_write (u : bytes) (pre : bytes) :
  length u = 32%nat ->
  (if len u =? 32 then write u ;;; ret tt else raise AssertionError)
    (cursor pre [])
  = (Ok tt, cursor (pre ++ u) []).
Proof.
  intros H. unfold len. rewrite H. cbn [Z.of_nat Pos.of_succ_nat Pos.succ
    Z.eqb Pos.eqb]. unfold bind, ret. now rewrite write_cursor.
Qed.

Lemma uint256_read (u pre rest : bytes) :
  length u = 32%nat ->
  ser_read 32 (cursor pre (u ++ rest)) = (Ok u, cursor (pre ++ u) rest).
Proof.
  intros H. apply ser_read_exact; [unfold len; now rewrite H | discriminate].
Qed.

Lemma concat_length_32 (uints : list bytes) :
  Forall (fun u => length u = 32%nat) uints ->
  length (concat uints) = (32 * length uints)%nat.
Proof.
  induction 1 as [|u uints Hu _ IH]; [reflexivity|].
  cbn [concat length]. rewrite length_app, Hu, IH. lia.
Qed.

(** X11. Round trip of a vector of 32-byte values: when every element of
    [uints] is 32 bytes long, [stream_serialize] appends the VarInt count
    and then the elements, as they are, [32 * len(uints)] bytes in all, and
    [stream_deserialize], started at the count, returns [uints] in order
    and stops right after the last one. *)
Theorem uint256_vector_round_trip (uints : list bytes) (pre rest : bytes) :
  Forall (fun u => length u = 32%nat) uints ->
  len uints <= 2 ^ 64 - 1 ->
  exists hdr,
    VarIntSerializer.deserialize hdr = Ok (len uints) /\
    uint256VectorSerializer.stream_serialize uints (cursor pre [])
    = (Ok tt, cursor (pre ++ hdr ++ concat uints) []) /\
    length (concat uints) = (32 * length uints)%nat /\
    uint256VectorSerializer.stream_deserialize
      (cursor pre ((hdr ++ concat uints) ++ rest))
    = (Ok uints, cursor (pre ++ hdr ++ concat uints) rest).
Proof.
  intros H32 Hlen. pose proof (len_nonneg uints) as Hnn.
  assert (H64 : 0 <= len uints < 2 ^ 64) by lia.
  rewrite Forall_forall in H32.
  exists (varint_tier (len uints)). split; [|split; [|split]].
  - rewrite <- (app_nil_r (varint_tier _)). now apply deserialize_tier.
  - unfold uint256VectorSerializer.stream_serialize.
    rewrite (bind_ok _ _ _ _ _ (stream_serialize_tier _ pre H64)).
    rewrite (for_each_writes (fun u => u))
      by (intros u Hu pre0; apply uint256_write; now apply H32).
    now rewrite map_id, <- app_assoc.
  - apply concat_length_32. now apply Forall_forall.
  - unfold uint256VectorSerializer.stream_deserialize, for_range.
    rewrite <- app_assoc.
    rewrite (bind_ok _ _ _ _ _ (stream_deserialize_tier _ pre _ H64)).
    unfold len at 1. rewrite Nat2Z.id.
    pose proof (iterate_reads (fun u => u) (ser_read 32) uints) as Hit.
    rewrite map_id in Hit. rewrite Hit
      by (intros u Hu pre0 rest0; apply uint256_read; now apply H32).
    cbn [app]. now rewrite <- app_assoc.
Qed.

Lemma uint256_vector_round_trip_witness :
  exists hdr,
    VarIntSerializer.deserialize hdr
    = Ok (len [repeat x11 32; repeat x22 32]) /\
    uint256VectorSerializer.stream_serialize
      [repeat x11 32; repeat x22 32] (cursor [] [])
    = (Ok tt,
       cursor ([] ++ hdr ++ concat [repeat x11 32; repeat x22 32]) []) /\
    length (concat [repeat x11 32; repeat x22 32]) = (32 * 2)%nat /\
    uint256VectorSerializer.stream_deserialize
      (cursor [] ((hdr ++ concat [repeat x11 32; repeat x22 32]) ++ [xaa]))
    = (Ok [repeat x11 32; repeat x22 32],
       cursor ([] ++ hdr ++ concat [repeat x11 32; repeat x22 32]) [xaa]).
Proof.
  apply (uint256_vector_round_trip [repeat x11 32; repeat x22 32] [] [xaa]).
  - repeat constructor.
  - discriminate.
Defined.

(** X12. The length assertion of the 32-byte vector encode: an element
    that is not 32 bytes long raises [AssertionError], nothing of it being
    written, neither cut nor padded; the stream then holds the count of the
    whole list and the 32-byte elements that came before it, and
    [serialize] raises [AssertionError]. *)
Theorem uint256_vector_assertion (good : list bytes) (bad : bytes)
    (tl : list bytes) (pre : bytes) :
  Forall (fun u => length u = 32%nat) good ->
  length bad <> 32%nat ->
  len (good ++ bad :: tl) <= 2 ^ 64 - 1 ->
  exists hdr,
    VarIntSerializer.deserialize hdr = Ok (len (good ++ bad :: tl)) /\
    uint256VectorSerializer.stream_serialize (good ++ bad :: tl)
      (cursor pre [])
    = (Raise AssertionError, cursor (pre ++ hdr ++ concat good) []) /\
    uint256VectorSerializer.serialize (good ++ bad :: tl)
    = Raise AssertionError.
Proof.
  intros H32 Hbad Hlen.
  pose proof (len_nonneg (good ++ bad :: tl)) as Hnn.
  assert (H64 : 0 <= len (good ++ bad :: tl) < 2 ^ 64) by lia.
  rewrite Forall_forall in H32.
  assert (Hs : forall pre0,
    uint256VectorSerializer.stream_serialize (good ++ bad :: tl)
      (cursor pre0 [])
    = (Raise AssertionError,
       cursor (pre0 ++ varint_tier (len (good ++ bad :: tl)) ++ concat good)
         [])).
  { intros pre0. unfold uint256VectorSerializer.stream_serialize.
    rewrite (bind_ok _ _ _ _ _ (stream_serialize_tier _ pre0 H64)).
    apply (for_each_raises (fun u => u)).
    - intros u Hu pre1. apply uint256_write. now apply H32.
    - rewrite map_id, <- app_assoc.
      destruct (len bad =? 32) eqn:E; [|reflexivity].
      zbool. unfold len in E. lia. }
  exists (varint_tier (len (good ++ bad :: tl))). split; [|split].
  - rewrite <- (app_nil_r (varint_tier _)). now apply deserialize_tier.
  - apply Hs.
  - unfold uint256VectorSerializer.serialize, Serializer.serialize.
    cbn [Serializer.stream_serialize uint256VectorSerializer.cls].
    now rewrite BytesIO_new_cursor, Hs.
Qed.

Lemma uint256_vector_assertion_witness :
  exists hdr,
    VarIntSerializer.deserialize hdr
    = Ok (len ([repeat x11 32] ++ repeat x22 31 :: [])) /\
    uint256VectorSerializer.stream_serialize
      ([repeat x11 32] ++ repeat x22 31 :: []) (cursor [] [])
    = (Raise AssertionError,
       cursor ([] ++ hdr ++ concat [repeat x11 32]) []) /\
    uint256VectorSerializer.serialize
      ([repeat x11 32] ++ repeat x22 31 :: [])
    = Raise AssertionError.
Proof.
  apply (uint256_vector_assertion [repeat x11 32] (repeat x22 31) [] []).
  - repeat constructor.
  - discriminate.
  - discriminate.
Defined.

Lemma run_ser_read_32 (k : nat) (f f' : BytesIO) (ys : list bytes) :
  run (ser_read 32) k f ys f' ->
  Forall (fun x => length x = 32%nat) ys /\
  buf f' = buf f /\ pos f' = (pos f + 32 * k)%nat /\
  remaining f = concat ys ++ remaining f'.
Proof.
  induction 1 as [f | k f x f1 xs f' Hx Hr (IH1 & IH2 & IH3 & IH4)].
  - repeat split; [constructor | lia].
  - apply ser_read_ok_general in Hx as (Hl & Hb & Hp & Hrem); [|lia].
    assert (Hx32 : length x = 32%nat) by (unfold len in Hl; lia).
    repeat split.
    + constructor; assumption.
    + congruence.
    + lia.
    + cbn [concat]. now rewrite <- app_assoc, <- IH4.
Qed.

(** X13. What the 32-byte vector decode returns: as many elements as the
    VarInt count says, each exactly 32 bytes long, taken in order from the
    bytes that follow the count; the cursor has moved 32 bytes per element
    and the buffer is unchanged. *)
Theorem uint256_vector_decode_shape (f f' : BytesIO) (xs : list bytes) :
  uint256VectorSerializer.stream_deserialize f = (Ok xs, f') ->
  exists n f1,
    VarIntSerializer.stream_deserialize f = (Ok n, f1) /\
    len xs = n /\
    Forall (fun x => length x = 32%nat) xs /\
    buf f' = buf f1 /\ pos f' = (pos f1 + 32 * length xs)%nat /\
    remaining f1 = concat xs ++ remaining f'.
Proof.
  unfold uint256VectorSerializer.stream_deserialize, for_range. intros H.
  apply bind_ok_inv in H as (n & f1 & Hn & H).
  apply iterate_ok_inv in H as (ys & -> & Hr). cbn [app].
  pose proof (stream_deserialize_range _ _ _ Hn) as Hrange.
  pose proof (run_length _ _ _ _ _ Hr) as Hlen.
  apply run_ser_read_32 in Hr as (H32 & Hb & Hp & Hrem).
  exists n, f1. repeat split; try assumption.
  - unfold len. lia.
  - rewrite Hlen. exact Hp.
Qed.

Lemma uint256_vector_decode_shape_witness :
  exists n f1,
    VarIntSerializer.stream_deserialize
      (BytesIO_new (x01 :: repeat x11 32 ++ [xaa; xbb]))
    = (Ok n, f1) /\
    len [repeat x11 32] = n /\
    Forall (fun x => length x = 32%nat) [repeat x11 32] /\
    buf {| buf := x01 :: repeat x11 32 ++ [xaa; xbb]; pos := 33 |} = buf f1 /\
    pos {| buf := x01 :: repeat x11 32 ++ [xaa; xbb]; pos := 33 |}
    = (pos f1 + 32 * length [repeat x11 32])%nat /\
    remaining f1
    = concat [repeat x11 32]
      ++ remaining {| buf := x01 :: repeat x11 32 ++ [xaa; xbb]; pos := 33 |}.
Proof.
  apply (uint256_vector_decode_shape
           (BytesIO_new (x01 :: repeat x11 32 ++ [xaa; xbb]))).
  reflexivity.
Defined.

(** ** The 32-bit integer vector encode *)

(** X14. An integer outside the signed 32-bit range aborts the integer
    vector encode: [stream_serialize] raises [struct.error] at that
    element, the value being neither wrapped nor clamped, and the stream
    then holds the count of the whole list and four bytes for each integer
    that came before it. *)
Theorem intvector_encode_out_of_range (good : list Z) (bad : Z) (tl : list Z)
    (pre : bytes) :
  Forall (fun v => - 2 ^ 31 <= v < 2 ^ 31) good ->
  bad < - 2 ^ 31 \/ 2 ^ 31 <= bad ->
  len (good ++ bad :: tl) <= 2 ^ 64 - 1 ->
  exists hdr,
    VarIntSerializer.deserialize hdr = Ok (len (good ++ bad :: tl)) /\
    intVectorSerialzer.stream_serialize (good ++ bad :: tl) (cursor pre [])
    = (Raise struct_error,
       cursor (pre ++ hdr ++ concat (map (le_bytes 4) good)) []) /\
    length (concat (map (le_bytes 4) good)) = (4 * length good)%nat.
Proof.
  intros Hgood Hbad Hlen.
  pose proof (len_nonneg (good ++ bad :: tl)) as Hnn.
  assert (H64 : 0 <= len (good ++ bad :: tl) < 2 ^ 64) by lia.
  exists (varint_tier (len (good ++ bad :: tl))). split; [|split].
  - rewrite <- (app_nil_r (varint_tier _)). now apply deserialize_tier.
  - unfold intVectorSerialzer.stream_serialize. cbv zeta.
    rewrite (bind_ok _ _ _ _ _ (stream_serialize_tier _ pre H64)).
    apply (for_each_raises (le_bytes 4)).
    + rewrite Forall_forall in Hgood. intros v Hv pre0.
      unfold bind, lift, ret. rewrite pack_i_ok by (now apply Hgood).
      now rewrite write_cursor.
    + rewrite <- app_assoc. apply bind_raise. unfold lift, struct.pack_i.
      destruct (- 2 ^ 31 <=? bad) eqn:E1, (bad <? 2 ^ 31) eqn:E2; zbool;
        try reflexivity.
      lia.
  - clear. induction good as [|v good IH]; [reflexivity|].
    cbn [map concat length]. rewrite length_app, le_bytes_length, IH. lia.
Qed.

Lemma intvector_encode_out_of_range_witness :
  exists hdr,
    VarIntSerializer.deserialize hdr = Ok (len ([7] ++ 2 ^ 31 :: [8])) /\
    intVectorSerialzer.stream_serialize ([7] ++ 2 ^ 31 :: [8]) (cursor [] [])
    = (Raise struct_error,
       cursor ([] ++ hdr ++ concat (map (le_bytes 4) [7])) []) /\
    length (concat (map (le_bytes 4) [7])) = (4 * length [7])%nat.
Proof.
  apply (intvector_encode_out_of_range [7] (2 ^ 31) [8] []).
  - repeat constructor; discriminate.
  - right. discriminate.
  - discriminate.
Defined.

(** ** [uint256_from_str] and [uint256_from_compact] *)

Lemma le_int_app (a b : bytes) :
  le_int (a ++ b) = le_int a + 2 ^ (8 * Z.of_nat (length a)) * le_int b.
Proof.
  induction a as [|x a IH].
  - cbn [app le_int length Z.of_nat]. change (2 ^ (8 * 0)) with 1. lia.
  - cbn [app le_int length]. rewrite IH.
    replace (8 * Z.of_nat (S (length a)))
      with (8 + 8 * Z.of_nat (length a)) by lia.
    rewrite Z.pow_add_r by lia. change (2 ^ 8) with 256. ring.
Qed.

Lemma firstn_4_more (m : nat) (s : bytes) :
  (4 <= length s)%nat ->
  firstn (4 + m) s = firstn 4 s ++ firstn m (skipn 4 s).
Proof.
  intros H. rewrite <- (firstn_skipn 4 s) at 1.
  replace (4 + m)%nat with (length (firstn 4 s) + m)%nat
    by (rewrite length_firstn; lia).
  apply firstn_app_2.
Qed.

(** The words of [s], read as the digits of a number in base [2^32]. *)
Lemma le_int_firstn_words (k : nat) :
  forall s, (4 * k <= length s)%nat ->
    le_int (firstn (4 * k) s)
    = fold_right (fun w acc => w + 2 ^ 32 * acc) 0 (words k s).
Proof.
  induction k as [|k IH]; intros s Hs.
  - reflexivity.
  - replace (4 * S k)%nat with (4 + 4 * k)%nat by lia.
    rewrite firstn_4_more by lia.
    rewrite le_int_app, length_firstn, Nat.min_l by lia.
    cbn [words fold_right]. rewrite IH by (rewrite length_skipn; lia).
    reflexivity.
Qed.

Lemma fold_words (w0 w1 w2 w3 w4 w5 w6 w7 : Z) :
  fold_range 8 0
    (fun i r =>
       and_then (getitem [w0; w1; w2; w3; w4; w5; w6; w7] i) (fun ti =>
       and_then (lshift ti (i * 32)) (fun x => Ok (r + x))))
    0
  = Ok (w0 + 2 ^ 32 * (w1 + 2 ^ 32 * (w2 + 2 ^ 32 * (w3 + 2 ^ 32 * (w4
        + 2 ^ 32 * (w5 + 2 ^ 32 * (w6 + 2 ^ 32 * (w7 + 2 ^ 32 * 0)))))))).
Proof.
  transitivity
    (Ok (0 + Z.shiftl w0 0 + Z.shiftl w1 32 + Z.shiftl w2 64
         + Z.shiftl w3 96 + Z.shiftl w4 128 + Z.shiftl w5 160
         + Z.shiftl w6 192 + Z.shiftl w7 224)); [reflexivity|].
  f_equal. rewrite !Z.shiftl_mul_pow2 by lia.
  change (2 ^ 0) with 1.
  change (2 ^ 64) with (2 ^ 32 * 2 ^ 32).
  change (2 ^ 96) with (2 ^ 32 * 2 ^ 32 * 2 ^ 32).
  change (2 ^ 128) with (2 ^ 32 * 2 ^ 32 * 2 ^ 32 * 2 ^ 32).
  change (2 ^ 160) with (2 ^ 32 * 2 ^ 32 * 2 ^ 32 * 2 ^ 32 * 2 ^ 32).
  change (2 ^ 192)
    with (2 ^ 32 * 2 ^ 32 * 2 ^ 32 * 2 ^ 32 * 2 ^ 32 * 2 ^ 32).
  change (2 ^ 224)
    with (2 ^ 32 * 2 ^ 32 * 2 ^ 32 * 2 ^ 32 * 2 ^ 32 * 2 ^ 32 * 2 ^ 32).
  generalize (2 ^ 32). intros q. ring.
Qed.

(** X15. [uint256_from_str] reads the first 32 bytes of [s] as one
    little-endian integer, below [2^256], and ignores what follows them;
    on fewer than 32 bytes, the empty bytes included, it raises
    [struct.error]. *)
Theorem uint256_from_str_le (s : bytes) :
  ((32 <= length s)%nat ->
   uint256_from_str s = Ok (le_int (firstn 32 s)) /\
   0 <= le_int (firstn 32 s) < 2 ^ 256 /\
   forall t, uint256_from_str (firstn 32 s ++ t) = uint256_from_str s) /\
  ((length s < 32)%nat -> uint256_from_str s = Raise struct_error).
Proof.
  assert (Hok : forall s0, (32 <= length s0)%nat ->
            uint256_from_str s0 = Ok (le_int (firstn 32 s0))).
  { intros s0 Hs. unfold uint256_from_str, unpack_IIIIIIII.
    assert (Hl : length (firstn 32 s0) = 32%nat)
      by (rewrite length_firstn; lia).
    rewrite Hl, Nat.eqb_refl. cbn [and_then].
    generalize dependent (firstn 32 s0). intros s' Hl.
    replace (le_int s') with (le_int (firstn (4 * 8) s'))
      by (rewrite firstn_all2; [reflexivity | lia]).
    rewrite (le_int_firstn_words 8) by lia.
    cbn [words fold_right]. apply fold_words. }
  split.
  - intros Hs. split; [now apply Hok|]. split.
    + pose proof (le_int_range (firstn 32 s)) as Hr.
      rewrite length_firstn, Nat.min_l in Hr by lia. exact Hr.
    + intros t. rewrite !Hok; try assumption.
      * rewrite firstn_app, firstn_firstn, length_firstn.
        rewrite !Nat.min_l by lia. rewrite Nat.sub_diag. cbn [firstn].
        now rewrite app_nil_r.
      * rewrite length_app, length_firstn. lia.
  - intros Hs. unfold uint256_from_str, unpack_IIIIIIII.
    rewrite firstn_all2 by lia.
    destruct (length s =? 32)%nat eqn:E; [|reflexivity].
    apply Nat.eqb_eq in E. lia.
Qed.

Lemma uint256_from_str_le_witness :
  uint256_from_str (x01 :: repeat x00 30 ++ [x80; xff])
  = Ok (le_int (firstn 32 (x01 :: repeat x00 30 ++ [x80; xff]))) /\
  uint256_from_str (repeat xff 31) = Raise struct_error.
Proof.
  split.
  - apply (uint256_from_str_le (x01 :: repeat x00 30 ++ [x80; xff])).
    cbn [length repeat app]. repeat apply le_n_S. apply Nat.le_0_l.
  - apply (uint256_from_str_le (repeat xff 31)).
    cbn [length repeat]. apply le_n.
Defined.

(** X16. [uint256_from_compact] takes bits 24 to 31 of [c] as a byte count
    and the low 24 bits as a mantissa: with a count of at least 3 it
    returns the mantissa times [256^(count - 3)], which is below [2^256]
    for a count of at most 32; with a count below 3, as for [c = 0], the
    shift count is negative and it raises [ValueError] instead of shifting
    to the right. *)
Theorem uint256_from_compact_value (c : Z) :
  let nbytes := (c / 2 ^ 24) mod 256 in
  let mantissa := c mod 2 ^ 24 in
  (nbytes < 3 ->
   uint256_from_compact c = Raise (ValueError "negative shift count")) /\
  (3 <= nbytes ->
   uint256_from_compact c = Ok (mantissa * 256 ^ (nbytes - 3))) /\
  (3 <= nbytes <= 32 -> 0 <= mantissa * 256 ^ (nbytes - 3) < 2 ^ 256).
Proof.
  intros nbytes mantissa.
  assert (Hn : Z.land (Z.shiftr c 24) 0xFF = nbytes).
  { rewrite Z.shiftr_div_pow2 by lia. change 0xFF with (Z.ones 8).
    now rewrite Z.land_ones by lia. }
  assert (Hm : Z.land c 0xFFFFFF = mantissa).
  { change 0xFFFFFF with (Z.ones 24). now rewrite Z.land_ones by lia. }
  assert (Hmr : 0 <= mantissa < 2 ^ 24)
    by (apply Z.mod_pos_bound; reflexivity).
  unfold uint256_from_compact. cbv zeta. rewrite Hn, Hm. unfold lshift.
  split; [|split].
  - intros H. destruct (8 * (nbytes - 3) <? 0) eqn:E; zbool;
      [reflexivity | lia].
  - intros H. destruct (8 * (nbytes - 3) <? 0) eqn:E; zbool; [lia|].
    rewrite Z.shiftl_mul_pow2 by lia.
    rewrite Z.pow_mul_r by lia. reflexivity.
  - intros H.
    assert (Hp : 0 < 256 ^ (nbytes - 3) <= 256 ^ 29).
    { split; [apply Z.pow_pos_nonneg; lia|].
      apply Z.pow_le_mono_r; lia. }
    change (2 ^ 256) with (2 ^ 24 * 256 ^ 29).
    split; [nia|].
    apply Z.lt_le_trans with (2 ^ 24 * 256 ^ (nbytes - 3)).
    + apply Z.mul_lt_mono_pos_r; lia.
    + apply Z.mul_le_mono_nonneg_l; lia.
Qed.

(** The compact target of the first block, and a count below 3. *)
Lemma uint256_from_compact_value_witness :
  uint256_from_compact 0x1d00ffff = Ok (0xffff * 256 ^ 26) /\
  uint256_from_compact 0x02008000 = Raise (ValueError "negative shift count").
Proof.
  split.
  - apply (uint256_from_compact_value 0x1d00ffff). discriminate.
  - apply (uint256_from_compact_value 0x02008000). reflexivity.
Defined.

(** ** [Serializable]: inequality and failing serialization *)

Lemma eq_related (a b : Serializable.object) :
  Serializable.isinstance b (Serializable.class_of a) = true \/
  Serializable.isinstance a (Serializable.class_of b) = true ->
  Serializable.__eq__ a b
  = match Serializable.serialize a with
    | Raise e => Raise e
    | Ok sa =>
        match Serializable.serialize b with
        | Raise e => Raise e
        | Ok sb => Ok (Serializable.Bool (Serializable.bytes_eqb sa sb))
        end
    end.
Proof.
  intros Hrel. unfold Serializable.__eq__.
  destruct Hrel as [-> | ->]; cbn [negb andb];
    now rewrite ?andb_false_r.
Qed.

(** X17. [__ne__] is the negation of [==]: between two instances one of
    which is an instance of the other's class it is true exactly when the
    serialized bytes differ; between instances of unrelated classes it is
    true for any two distinct objects, whatever their serialized bytes. *)
Theorem serializable_ne (a b : Serializable.object) (sa sb : bytes) :
  Serializable.serialize a = Ok sa ->
  Serializable.serialize b = Ok sb ->
  (Serializable.isinstance b (Serializable.class_of a) = true \/
   Serializable.isinstance a (Serializable.class_of b) = true ->
   Serializable.__ne__ a b = Ok (negb (Serializable.bytes_eqb sa sb)) /\
   (Serializable.__ne__ a b = Ok true <-> sa <> sb)) /\
  (Serializable.isinstance b (Serializable.class_of a) = false ->
   Serializable.isinstance a (Serializable.class_of b) = false ->
   Serializable.__ne__ a b
   = Ok (negb (Serializable.ob_id a =? Serializable.ob_id b)%nat)).
Proof.
  intros Ha Hb. split.
  - intros Hrel.
    assert (Hne : Serializable.__ne__ a b
                  = Ok (negb (Serializable.bytes_eqb sa sb))).
    { unfold Serializable.__ne__, Serializable.py_eq. cbv zeta.
      rewrite (eq_related a b Hrel), (eq_related b a) by tauto.
      rewrite Ha, Hb, (bytes_eqb_sym sb sa).
      now destruct (_ && _). }
    split; [exact Hne|]. rewrite Hne.
    pose proof (bytes_eqb_eq sa sb) as Heq.
    destruct (Serializable.bytes_eqb sa sb); cbn [negb].
    + split; [discriminate|]. intros N. elim N. now apply Heq.
    + split; [|reflexivity]. intros _ E. apply Heq in E. discriminate.
  - intros Hb' Ha'.
    unfold Serializable.__ne__, Serializable.py_eq, Serializable.__eq__.
    cbv zeta. now rewrite Hb', Ha', andb_false_r.
Qed.

Lemma serializable_ne_witness :
  Serializable.__ne__ base_tx derived_tx = Ok false /\
  Serializable.__ne__ sibling_a sibling_b = Ok true.
Proof.
  split.
  - destruct (serializable_ne base_tx derived_tx [x01; x00] [x01; x00]
                eq_refl eq_refl) as ((H & _) & _).
    + left. reflexivity.
    + exact H.
  - destruct (serializable_ne sibling_a sibling_b [x01] [x01]
                eq_refl eq_refl) as (_ & H).
    apply H; reflexivity.
Defined.

(** X18. A serialization that raises: [serialize] starts from an empty
    stream and returns everything [stream_serialize] wrote, and passes on
    what it raises; so do [__hash__] and, between instances of related
    classes, [__eq__], the exception of [self] coming before the one of
    [other].  Between instances of unrelated classes [__eq__] returns
    [NotImplemented] without serializing either of them. *)
Theorem serializable_errors (hash : bytes -> Z) (a b : Serializable.object)
    (e : exn) (fa : BytesIO) :
  Serializable.stream_serialize a (BytesIO_new []) = (Raise e, fa) ->
  Serializable.serialize a = Raise e /\
  Serializable.__hash__ hash a = Raise e /\
  (Serializable.isinstance b (Serializable.class_of a) = true \/
   Serializable.isinstance a (Serializable.class_of b) = true ->
   Serializable.__eq__ a b = Raise e /\
   (forall sb, Serializable.serialize b = Ok sb ->
               Serializable.__eq__ b a = Raise e)) /\
  (Serializable.isinstance b (Serializable.class_of a) = false ->
   Serializable.isinstance a (Serializable.class_of b) = false ->
   Serializable.__eq__ a b = Ok Serializable.NotImplemented /\
   Serializable.__eq__ b a = Ok Serializable.NotImplemented).
Proof.
  intros H.
  assert (Hs : Serializable.serialize a = Raise e)
    by (unfold Serializable.serialize; now rewrite H).
  split; [exact Hs|]. split; [|split].
  - unfold Serializable.__hash__. now rewrite Hs.
  - intros Hrel. split.
    + rewrite (eq_related a b Hrel). now rewrite Hs.
    + intros sb Hb. rewrite (eq_related b a) by tauto.
      now rewrite Hb, Hs.
  - intros Hb Ha. unfold Serializable.__eq__.
    now rewrite Hb, Ha.
Qed.

Lemma serializable_errors_witness :
  Serializable.serialize abstract_obj = Raise NotImplementedError /\
  Serializable.__hash__ (fun s => len s) abstract_obj
  = Raise NotImplementedError /\
  Serializable.__eq__ abstract_obj base_tx = Raise NotImplementedError /\
  Serializable.__eq__ base_tx abstract_obj = Raise NotImplementedError /\
  Serializable.__eq__ abstract_obj sibling_a
  = Ok Serializable.NotImplemented.
Proof.
  destruct (serializable_errors (fun s => len s) abstract_obj base_tx
              NotImplementedError (BytesIO_new []) eq_refl)
    as (H1 & H2 & H3 & _).
  destruct (serializable_errors (fun s => len s) abstract_obj sibling_a
              NotImplementedError (BytesIO_new []) eq_refl)
    as (_ & _ & _ & H4).
  destruct H3 as (H3 & H3'); [left; reflexivity|].
  destruct H4 as (H4 & _); [reflexivity | reflexivity|].
  split; [exact H1|]. split; [exact H2|]. split; [exact H3|].
  split; [|exact H4].
  apply (H3' [x01; x00]). reflexivity.
Defined.

(** ** [uint256_to_shortstr] *)

Lemma hex_fixed_length (w : nat) : forall n, length (hex_fixed w n) = w.
Proof.
  induction w as [|w IH]; intros n; [reflexivity|].
  cbn [hex_fixed]. rewrite length_app, IH. cbn [length]. lia.
Qed.

Lemma hex_fixed_zero (w : nat) : hex_fixed w 0 = repeat "0"%char w.
Proof.
  induction w as [|w IH]; [reflexivity|].
  cbn [hex_fixed repeat]. change (0 / 16) with 0. rewrite IH.
  change (hex_digit (0 mod 16)) with "0"%char.
  symmetry. apply repeat_cons.
Qed.

Lemma hex_fixed_add (a b : nat) :
  forall n, 0 <= n ->
    hex_fixed (a + b) n
    = hex_fixed a (n / 16 ^ Z.of_nat b) ++ hex_fixed b n.
Proof.
  induction b as [|b IH]; intros n Hn.
  - rewrite Nat.add_0_r. cbn [hex_fixed Z.of_nat].
    change (16 ^ 0) with 1. now rewrite Z.div_1_r, app_nil_r.
  - rewrite Nat.add_succ_r. cbn [hex_fixed].
    rewrite IH by (apply Z.div_pos; lia).
    rewrite Z.div_div by (try apply Z.pow_pos_nonneg; lia).
    replace (16 * 16 ^ Z.of_nat b) with (16 ^ Z.of_nat (S b))
      by (rewrite Nat2Z.inj_succ, Z.pow_succ_r; lia).
    now rewrite <- app_assoc.
Qed.

Lemma hex_aux_fixed (fuel : nat) :
  forall n acc,
    (1 <= fuel)%nat -> 0 <= n < 16 ^ Z.of_nat fuel ->
    exists k,
      (1 <= k <= fuel)%nat /\
      hex_aux fuel n acc = hex_fixed k n ++ acc /\
      n < 16 ^ Z.of_nat k /\
      (k = 1%nat \/ 16 ^ (Z.of_nat k - 1) <= n).
Proof.
  induction fuel as [|fuel IH]; intros n acc Hf Hn; [lia|].
  cbn [hex_aux]. destruct (n <? 16) eqn:E; zbool.
  - exists 1%nat.
    split; [lia|]. split; [reflexivity|]. split; [exact E | now left].
  - assert (Hf' : (1 <= fuel)%nat).
    { destruct fuel; [|lia]. change (16 ^ Z.of_nat 1) with 16 in Hn. lia. }
    assert (Hq : 0 <= n / 16 < 16 ^ Z.of_nat fuel).
    { split; [apply Z.div_pos; lia|].
      apply Z.div_lt_upper_bound; [lia|].
      rewrite Nat2Z.inj_succ, Z.pow_succ_r in Hn by lia. lia. }
    destruct (IH (n / 16) (hex_digit (n mod 16) :: acc) Hf' Hq)
      as (k & Hk & Hh & Hlt & Hge).
    exists (S k). split; [lia|]. split; [|split].
    + rewrite Hh. cbn [hex_fixed]. now rewrite <- app_assoc.
    + rewrite Nat2Z.inj_succ, Z.pow_succ_r by lia.
      pose proof (Z.div_mod n 16 ltac:(lia)) as Hdm.
      pose proof (Z.mod_pos_bound n 16 ltac:(lia)) as Hmb. lia.
    + right. replace (Z.of_nat (S k) - 1) with (Z.of_nat k) by lia.
      pose proof (Z.div_mod n 16 ltac:(lia)) as Hdm.
      pose proof (Z.mod_pos_bound n 16 ltac:(lia)) as Hmb.
      destruct Hge as [-> | Hge].
      * change (16 ^ Z.of_nat 1) with 16. lia.
      * replace (Z.of_nat k) with (Z.succ (Z.of_nat k - 1)) by lia.
        rewrite Z.pow_succ_r by lia. lia.
Qed.

Lemma hex_fuel (n : Z) :
  0 <= n -> n < 16 ^ Z.of_nat (S (Z.to_nat (Z.log2 n))).
Proof.
  intros Hn. pose proof (Z.log2_nonneg n) as Hl.
  rewrite Nat2Z.inj_succ, Z2Nat.id by lia.
  apply Z.lt_le_trans with (2 ^ Z.succ (Z.log2 n)).
  - destruct (Z.eq_dec n 0) as [-> | Hne]; [reflexivity|].
    apply Z.log2_spec. lia.
  - apply Z.pow_le_mono_l. lia.
Qed.

(** Within the width, the padded format is the fixed-width one. *)
Lemma fmt_0x_fixed (w : nat) (n : Z) :
  (1 <= w)%nat -> 0 <= n < 16 ^ Z.of_nat w -> fmt_0x w n = hex_fixed w n.
Proof.
  intros Hw Hn. unfold fmt_0x, hex.
  destruct (n <? 0) eqn:E; zbool; [lia|]. cbv zeta. cbn [app length].
  rewrite Z.abs_eq by lia.
  destruct (hex_aux_fixed (S (Z.to_nat (Z.log2 n))) n [])
    as (k & Hk & Hh & Hlt & Hge); [lia | split; [lia | apply hex_fuel; lia]|].
  rewrite Hh, app_nil_r, hex_fixed_length, Nat.sub_0_r.
  assert (Hkw : (k <= w)%nat).
  { destruct Hge as [-> | Hge]; [exact Hw|].
    destruct (Nat.le_gt_cases k w) as [L|G]; [exact L|].
    assert (16 ^ Z.of_nat w <= 16 ^ (Z.of_nat k - 1))
      by (apply Z.pow_le_mono_r; lia). lia. }
  replace w with ((w - k) + k)%nat at 2 by lia.
  rewrite hex_fixed_add by lia.
  rewrite Z.div_small by lia. now rewrite hex_fixed_zero.
Qed.

(** X19. For [0 <= u < 2^256], [uint256_to_shortstr u] is the 16
    most significant of the 64 hexadecimal digits of [u], that is
    ["%016x" % (u >> 192)]: 16 characters, all zeros when [u < 2^192]. *)
Theorem uint256_to_shortstr_top_digits (u : Z) :
  0 <= u < 2 ^ 256 ->
  uint256_to_shortstr u = fmt_0x 16 (u / 2 ^ 192) /\
  length (uint256_to_shortstr u) = 16%nat /\
  (u < 2 ^ 192 -> uint256_to_shortstr u = repeat "0"%char 16).
Proof.
  intros Hu.
  assert (Hq : 0 <= u / 2 ^ 192 < 16 ^ Z.of_nat 16).
  { split; [apply Z.div_pos; lia|].
    apply Z.div_lt_upper_bound; [lia|].
    change (2 ^ 192 * 16 ^ Z.of_nat 16) with (2 ^ 256). lia. }
  assert (Hs : uint256_to_shortstr u = hex_fixed 16 (u / 2 ^ 192)).
  { unfold uint256_to_shortstr. cbv zeta.
    rewrite fmt_0x_fixed
      by (lia || (change (16 ^ Z.of_nat 64) with (2 ^ 256); lia)).
    change 64%nat with (16 + 48)%nat. rewrite hex_fixed_add by lia.
    change (16 ^ Z.of_nat 48) with (2 ^ 192).
    rewrite firstn_app, hex_fixed_length, Nat.sub_diag, firstn_O.
    rewrite app_nil_r. apply firstn_all2. rewrite hex_fixed_length. lia. }
  split; [|split].
  - rewrite Hs. symmetry. apply fmt_0x_fixed; [lia | exact Hq].
  - rewrite Hs. apply hex_fixed_length.
  - intros Hlow. rewrite Hs, Z.div_small by lia. apply hex_fixed_zero.
Qed.

Lemma uint256_to_shortstr_top_digits_witness :
  uint256_to_shortstr (0xffff * 256 ^ 26)
  = fmt_0x 16 (0xffff * 256 ^ 26 / 2 ^ 192) /\
  length (uint256_to_shortstr (0xffff * 256 ^ 26)) = 16%nat.
Proof.
  destruct (uint256_to_shortstr_top_digits (0xffff * 256 ^ 26))
    as (H1 & H2 & _).
  - split; [discriminate | reflexivity].
  - split; [exact H1 | exact H2].
Defined.

Example shortstr_genesis_target :
  uint256_to_shortstr (0xffff * 256 ^ 26)
  = list_ascii_of_string "00000000ffff0000".
Proof. vm_compute. reflexivity. Qed.

(** ** Encodings that delimit themselves *)

(** X20. VarInt encodings are self-delimiting: if the encoding of [i]
    followed by some bytes is the encoding of [j] followed by some bytes,
    then [i = j] and what follows is the same; in particular the encoder is
    injective and no encoding is a proper prefix of another. *)
Theorem varint_self_delimiting (i j : Z) (ei ej r1 r2 : bytes) :
  VarIntSerializer.serialize i = Ok ei ->
  VarIntSerializer.serialize j = Ok ej ->
  0 <= i <= 2 ^ 64 - 1 ->
  0 <= j <= 2 ^ 64 - 1 ->
  ei ++ r1 = ej ++ r2 ->
  i = j /\ ei = ej /\ r1 = r2.
Proof.
  intros Hi Hj Ri Rj E.
  rewrite serialize_tier in Hi, Hj by lia.
  injection Hi as <-. injection Hj as <-.
  pose proof (stream_deserialize_tier i [] r1 ltac:(lia)) as Di.
  pose proof (stream_deserialize_tier j [] r2 ltac:(lia)) as Dj.
  rewrite E, Dj in Di. injection Di as Hij _. subst j.
  repeat split. now apply app_inv_head in E.
Qed.

Lemma varint_self_delimiting_witness :
  0xfd = 0xfd /\ [xfd; xfd; x00] = [xfd; xfd; x00] /\ [x01] = [x01].
Proof.
  apply (varint_self_delimiting 0xfd 0xfd [xfd; xfd; x00] [xfd; xfd; x00]
           [x01] [x01]); try reflexivity; split; discriminate.
Defined.

(** ** Decoders only read *)

Lemma read_only_ret {A : Type} (a : A) : read_only (ret a).
Proof. intros f r f' H. injection H as <- <-. split; [reflexivity | lia]. Qed.

Lemma read_only_lift {A : Type} (x : result A) : read_only (lift x).
Proof. intros f r f' H. injection H as <- <-. split; [reflexivity | lia]. Qed.

Lemma read_only_bind {A B : Type} (m : io A) (k : A -> io B) :
  read_only m -> (forall x, read_only (k x)) -> read_only (bind m k).
Proof.
  intros Hm Hk f r f' H. unfold bind in H.
  destruct (m f) as [[x|e] f1] eqn:E.
  - apply Hm in E as (Hb & Hp). apply Hk in H as (Hb' & Hp').
    split; [congruence | lia].
  - injection H as <- <-. now apply Hm in E.
Qed.

Lemma read_only_ser_read (n : Z) : read_only (ser_read n).
Proof.
  intros f r f'.
  destruct (Z.lt_ge_cases n (- 2 ^ 63)) as [Hlow | Hin].
  { rewrite ser_read_overflow by exact Hlow.
    intros H. injection H as <- <-. split; [reflexivity | lia]. }
  rewrite ser_read_unfold by exact Hin.
  destruct (n >? MAX_SIZE).
  { intros H. injection H as <- <-. split; [reflexivity | lia]. }
  cbv zeta. destruct (len _ <? n); intros H; injection H as <- <-;
    cbn [buf pos]; split; (reflexivity || lia).
Qed.

Lemma read_only_iterate {S : Type} (body : S -> io S) :
  (forall s, read_only (body s)) ->
  forall k s, read_only (iterate k body s).
Proof.
  intros Hb k. induction k as [|k IH]; intros s; cbn [iterate].
  - apply read_only_ret.
  - apply read_only_bind; [apply Hb | exact IH].
Qed.

Lemma read_only_varint : read_only VarIntSerializer.stream_deserialize.
Proof.
  unfold VarIntSerializer.stream_deserialize.
  apply read_only_bind; [apply read_only_ser_read|]. intros s.
  apply read_only_bind; [apply read_only_lift|]. intros r.
  destruct (r <? 0xfd); [apply read_only_ret|].
  destruct (r =? 0xfd); [|destruct (r =? 0xfe)];
    (apply read_only_bind; [apply read_only_ser_read|]; intros s';
     apply read_only_bind; [apply read_only_lift|]; intros t;
     apply read_only_lift).
Qed.

(** X21. Every decoder of the module only reads: however a
    [stream_deserialize] ends, with a value or with an exception, the
    contents of the stream's buffer are what they were and the cursor has
    not moved backwards; the generic vector decoder does so whenever its
    element decoder does. *)
Theorem decoders_read_only :
  read_only VarIntSerializer.stream_deserialize /\
  read_only BytesSerializer.stream_deserialize /\
  read_only VarStringSerializer.stream_deserialize /\
  read_only uint256VectorSerializer.stream_deserialize /\
  read_only intVectorSerialzer.stream_deserialize /\
  (forall (A B : Type) (inner_cls : Serializer.class A B),
     read_only (Serializer.stream_deserialize inner_cls) ->
     read_only (VectorSerializer.stream_deserialize inner_cls)).
Proof.
  repeat apply conj.
  - apply read_only_varint.
  - apply read_only_bind; [apply read_only_varint|].
    intros l. apply read_only_ser_read.
  - apply read_only_bind; [apply read_only_varint|].
    intros l. apply read_only_ser_read.
  - apply read_only_bind; [apply read_only_varint|]. intros n.
    apply read_only_iterate. intros r.
    apply read_only_bind; [apply read_only_ser_read|]. intros x.
    apply read_only_ret.
  - apply read_only_bind; [|intros ints; apply read_only_ret].
    apply read_only_bind; [apply read_only_varint|]. intros n.
    apply read_only_iterate. intros r.
    apply read_only_bind; [apply read_only_ser_read|]. intros s.
    apply read_only_bind; [apply read_only_lift|]. intros t.
    apply read_only_ret.
  - intros A B inner_cls Hi.
    apply read_only_bind; [apply read_only_varint|]. intros n.
    apply read_only_iterate. intros r.
    apply read_only_bind; [exact Hi|]. intros x. apply read_only_ret.
Qed.

Lemma decoders_read_only_witness :
  read_only (VectorSerializer.stream_deserialize VarIntSerializer.cls).
Proof.
  destruct decoders_read_only as (Hv & _ & _ & _ & _ & Hvec).
  apply (Hvec Z Z VarIntSerializer.cls). exact Hv.
Defined.

(** ** The claim on the buffer entry points *)

(** C10. Trailing bytes are ignored: [deserialize] wraps the buffer in a
    fresh stream and returns what [stream_deserialize] returns, whether or
    not the buffer was read to its end.  So whenever the
    [stream_deserialize] of [VarIntSerializer], [BytesSerializer],
    [VarStringSerializer] or [uint256VectorSerializer], or of any class,
    [Serializer] or [Serializable], that reads a prefix only, returns [x]
    on a fresh stream over [e], [deserialize] returns [x] on [e] followed
    by any bytes [t].  And what [serialize] returns, followed by [t],
    deserializes to the value serialized: a VarInt [i <= 2^64 - 1], bytes
    or a string of length at most [MAX_SIZE], a list of 32-byte values. *)
Theorem deserialize_ignores_trailing (t : bytes) :
  (forall e x f',
     VarIntSerializer.stream_deserialize (BytesIO_new e) = (Ok x, f') ->
     VarIntSerializer.deserialize (e ++ t) = Ok x) /\
  (forall e x f',
     BytesSerializer.stream_deserialize (BytesIO_new e) = (Ok x, f') ->
     BytesSerializer.deserialize (e ++ t) = Ok x) /\
  (forall e x f',
     VarStringSerializer.stream_deserialize (BytesIO_new e) = (Ok x, f') ->
     VarStringSerializer.deserialize (e ++ t) = Ok x) /\
  (forall e x f',
     uint256VectorSerializer.stream_deserialize (BytesIO_new e) = (Ok x, f') ->
     uint256VectorSerializer.deserialize (e ++ t) = Ok x) /\
  (forall (A B : Type) (cls : Serializer.class A B) e x f',
     prefix_decoder (Serializer.stream_deserialize cls) ->
     Serializer.stream_deserialize cls (BytesIO_new e) = (Ok x, f') ->
     Serializer.deserialize cls (e ++ t) = Ok x) /\
  (forall (A : Type) (stream_deserialize : io A) e x f',
     prefix_decoder stream_deserialize ->
     stream_deserialize (BytesIO_new e) = (Ok x, f') ->
     Serializable.deserialize stream_deserialize (e ++ t) = Ok x) /\
  (forall i, 0 <= i <= 2 ^ 64 - 1 ->
     exists e, VarIntSerializer.serialize i = Ok e /\
               VarIntSerializer.deserialize (e ++ t) = Ok i) /\
  (forall b, len b <= MAX_SIZE ->
     exists e, BytesSerializer.serialize b = Ok e /\
               BytesSerializer.deserialize (e ++ t) = Ok b) /\
  (forall s, len s <= MAX_SIZE ->
     exists e, VarStringSerializer.serialize s = Ok e /\
               VarStringSerializer.deserialize (e ++ t) = Ok s) /\
  (forall uints,
     Forall (fun u => length u = 32%nat) uints ->
     len uints <= 2 ^ 64 - 1 ->
     exists e, uint256VectorSerializer.serialize uints = Ok e /\
               uint256VectorSerializer.deserialize (e ++ t) = Ok uints).
Proof.
  assert (G : forall (A : Type) (m : io A) e x f',
            prefix_decoder m ->
            m (BytesIO_new e) = (Ok x, f') ->
            fst (m (BytesIO_new (e ++ t))) = Ok x).
  { intros A m e x f' Pm H. apply prefix_decoder_buffer; [exact Pm|].
    now rewrite H. }
  assert (Hbytes : forall b, len b <= MAX_SIZE ->
    fst (BytesSerializer.stream_serialize b (BytesIO_new []))
    = Ok tt /\
    getvalue (snd (BytesSerializer.stream_serialize b (BytesIO_new [])))
    = varint_tier (len b) ++ b /\
    fst (BytesSerializer.stream_deserialize
           (BytesIO_new ((varint_tier (len b) ++ b) ++ t))) = Ok b).
  { intros b Hb. pose proof (len_nonneg b) as Hnn.
    rewrite (BytesIO_new_cursor []).
    rewrite (BytesIO_new_cursor ((varint_tier (len b) ++ b) ++ t)).
    rewrite bytes_stream_serialize by (unfold MAX_SIZE in Hb; lia).
    rewrite bytes_stream_deserialize by exact Hb.
    cbn [fst snd]. unfold getvalue, cursor. cbn [buf app].
    now rewrite app_nil_r. }
  repeat apply conj.
  - intros e x f'. apply G, prefix_varint.
  - intros e x f'. apply G, prefix_length_prefixed.
  - intros e x f'. apply G, prefix_length_prefixed.
  - intros e x f'. apply G, prefix_uint256_vector.
  - intros A B cls e x f' P. now apply G.
  - intros A m e x f' P. now apply G.
  - intros i Hi. exists (varint_tier i).
    split; [apply serialize_tier | apply deserialize_tier]; lia.
  - intros b Hb. exists (varint_tier (len b) ++ b).
    destruct (Hbytes b Hb) as (H1 & H2 & H3). split; [|exact H3].
    unfold BytesSerializer.serialize, Serializer.serialize.
    cbn [Serializer.stream_serialize BytesSerializer.cls].
    destruct (BytesSerializer.stream_serialize b (BytesIO_new []))
      as [[[]|e] f1]; cbn [fst snd] in H1, H2; [now rewrite H2 | discriminate].
  - intros s Hs. exists (varint_tier (len s) ++ s).
    destruct (Hbytes s Hs) as (H1 & H2 & H3). split; [|exact H3].
    unfold VarStringSerializer.serialize, Serializer.serialize.
    cbn [Serializer.stream_serialize VarStringSerializer.cls].
    change (VarStringSerializer.stream_serialize s)
      with (BytesSerializer.stream_serialize s).
    destruct (BytesSerializer.stream_serialize s (BytesIO_new []))
      as [[[]|e] f1]; cbn [fst snd] in H1, H2; [now rewrite H2 | discriminate].
  - intros uints H32 Hlen. pose proof (len_nonneg uints) as Hnn.
    assert (H64 : 0 <= len uints < 2 ^ 64) by lia.
    rewrite Forall_forall in H32.
    exists (varint_tier (len uints) ++ concat uints). split.
    + unfold uint256VectorSerializer.serialize, Serializer.serialize.
      cbn [Serializer.stream_serialize uint256VectorSerializer.cls].
      unfold uint256VectorSerializer.stream_serialize.
      rewrite BytesIO_new_cursor.
      rewrite (bind_ok _ _ _ _ _ (stream_serialize_tier _ [] H64)).
      rewrite (for_each_writes (fun u => u))
        by (intros u Hu pre0; apply uint256_write; now apply H32).
      rewrite map_id. unfold getvalue, cursor. cbn [buf app].
      now rewrite app_nil_r.
    + unfold uint256VectorSerializer.deserialize, Serializer.deserialize.
      cbn [Serializer.stream_deserialize uint256VectorSerializer.cls].
      unfold uint256VectorSerializer.stream_deserialize, for_range.
      rewrite BytesIO_new_cursor, <- app_assoc.
      rewrite (bind_ok _ _ _ _ _ (stream_deserialize_tier _ [] _ H64)).
      unfold len at 1. rewrite Nat2Z.id.
      pose proof (iterate_reads (fun u => u) (ser_read 32) uints) as Hit.
      rewrite map_id in Hit. rewrite Hit
        by (intros u Hu pre0 rest0; apply uint256_read; now apply H32).
      reflexivity.
Qed.

Lemma deserialize_ignores_trailing_witness :
  VarIntSerializer.deserialize ([xfd; x05; x00] ++ [xaa; xbb]) = Ok 5 /\
  BytesSerializer.deserialize ([x02; x68; x69] ++ [xaa; xbb]) = Ok [x68; x69]
  /\
  uint256VectorSerializer.deserialize
    ((x01 :: repeat x11 32) ++ [xaa; xbb]) = Ok [repeat x11 32] /\
  Serializable.deserialize VarIntSerializer.stream_deserialize
    ([xfd; x05; x00] ++ [xaa; xbb]) = Ok 5 /\
  (exists e, BytesSerializer.serialize [x68; x69] = Ok e /\
             BytesSerializer.deserialize (e ++ [xaa; xbb]) = Ok [x68; x69]).
Proof.
  destruct (deserialize_ignores_trailing [xaa; xbb])
    as (Hv & Hb & _ & Hu & _ & Hs & _ & Hser & _).
  split; [|split; [|split; [|split]]].
  - apply (Hv [xfd; x05; x00] 5 {| buf := [xfd; x05; x00]; pos := 3 |}).
    reflexivity.
  - apply (Hb [x02; x68; x69] [x68; x69]
             {| buf := [x02; x68; x69]; pos := 3 |}).
    reflexivity.
  - apply (Hu (x01 :: repeat x11 32) [repeat x11 32]
             {| buf := x01 :: repeat x11 32; pos := 33 |}).
    reflexivity.
  - apply (Hs Z VarIntSerializer.stream_deserialize [xfd; x05; x00] 5
             {| buf := [xfd; x05; x00]; pos := 3 |}).
    + exact prefix_varint.
    + reflexivity.
  - apply (Hser [x68; x69]). discriminate.
Defined.
